(** * TriggerContainer: fetch cycle, mutation dispatch and metric sorting

    A shallow embedding of [src/Containers/TriggerContainer.js].

    - [Js] models the pieces of the JavaScript run time the container
      relies on: strings as sequences of UTF-16 code units, the relational
      operator [<] on strings and numbers, ordinary objects with their
      own-property order, a heap of objects, and [Array.prototype.sort] as an
      interface with the laws every engine satisfies.
    - The component state, [setState] patches, the asynchronous methods
      ([getData], [disableTrhrottling], [setMaintenance], [removeMetric]),
      [sortMetrics] and the [onSort] handler follow the source line by line.

    Numbers: weights, timestamps and minutes are whole numbers ([Z]); a metric
    [value] is a finite double, i.e. a rational ([Q]); [-0] and [0] are the
    same rational, as they are the same for [<], [>] and [||]. A time
    outside the range of [Date] is [NaN], written [None]. *)

From Stdlib Require Import ZArith QArith List Bool String Ascii Permutation Lia.
From Stdlib Require Import Sorted NArith.
Import ListNotations.

Local Open Scope Z_scope.

(** ** The JavaScript run time *)

Module Js.

(** *** Strings *)

(** A string is its sequence of UTF-16 code units. *)
Definition jsstring := list N.

(** A literal of the source, all of whose characters are below 256. *)
Definition lit (s : string) : jsstring :=
  map N_of_ascii (list_ascii_of_string s).

Fixpoint str_eqb (a b : jsstring) : bool :=
  match a, b with
  | [], [] => true
  | x :: a', y :: b' => N.eqb x y && str_eqb a' b'
  | _, _ => false
  end.

(** [a < b] on two strings: code unit by code unit, a proper prefix first. *)
Fixpoint str_lt (a b : jsstring) : bool :=
  match a, b with
  | _, [] => false
  | [], _ :: _ => true
  | x :: a', y :: b' =>
      if N.ltb x y then true
      else if N.ltb y x then false
      else str_lt a' b'
  end.

(** WhiteSpace and LineTerminator code points, what [trim] strips. *)
Definition isWhiteSpace (c : N) : bool :=
  match c with
  | 9 | 10 | 11 | 12 | 13 | 32 | 160 | 5760
  | 8192 | 8193 | 8194 | 8195 | 8196 | 8197 | 8198 | 8199 | 8200 | 8201 | 8202
  | 8232 | 8233 | 8239 | 8287 | 12288 | 65279 => true
  | _ => false
  end%N.

Fixpoint trimStart (s : jsstring) : jsstring :=
  match s with
  | [] => []
  | c :: s' => if isWhiteSpace c then trimStart s' else s
  end.

Definition trimEnd (s : jsstring) : jsstring := rev (trimStart (rev s)).

(** [s.trim()] *)
Definition trim (s : jsstring) : jsstring := trimEnd (trimStart s).

(** [s.toLowerCase()] on the Basic Latin letters; other code units are kept.
    The container lowercases only strings that [replace] has reduced to
    [a-zA-Z0-9-.], where this is all of [toLowerCase]. *)
Definition lower (c : N) : N :=
  if (N.leb 65 c && N.leb c 90)%bool then (c + 32)%N else c.

Definition toLowerCase (s : jsstring) : jsstring := map lower s.

(** *** Relational operators on numbers *)

(** [a < b] on two finite numbers. *)
Definition num_lt (a b : Q) : bool :=
  match Qcompare a b with Lt => true | _ => false end.

(** [a < b] where an operand may be [undefined]: [ToNumber(undefined)] is
    [NaN], and a comparison with [NaN] is false. *)
Definition opt_lt (a b : option Z) : bool :=
  match a, b with
  | Some x, Some y => Z.ltb x y
  | _, _ => false
  end.

(** [a > b] is [b < a]. *)
Definition str_gt (a b : jsstring) : bool := str_lt b a.
Definition num_gt (a b : Q) : bool := num_lt b a.
Definition opt_gt (a b : option Z) : bool := opt_lt b a.

(** [v || 0] for an optional number: [undefined] and [0] are falsy. *)
Definition or_zero (v : option Q) : Q :=
  match v with
  | Some q => if Qeq_bool q 0 then 0%Q else q
  | None => 0%Q
  end.

(** *** Time values *)

(** A [Date] holds a time value within 8.64e15 milliseconds of the epoch;
    [TimeClip] of a time outside that range is [NaN] ([None]), and the date
    is invalid. *)
Definition maxTime : Z := 8640000000000000.

Definition inDateRange (t : Z) : Prop := Z.abs t <= maxTime.

Definition TimeClip (t : Z) : option Z :=
  if Z.abs t <=? maxTime then Some t else None.

(** *** Ordinary objects *)

(** An object with string keys: its properties in creation order, each key
    once. *)
Definition obj (V : Type) := list (jsstring * V).

Definition keys {V} (o : obj V) : list jsstring := map fst o.

(** [o[k]], [None] for [undefined]. *)
Fixpoint get {V} (o : obj V) (k : jsstring) : option V :=
  match o with
  | [] => None
  | (k', v) :: o' => if str_eqb k' k then Some v else get o' k
  end.

(** [o[k] = v]: an existing property keeps its place, a new one goes last. *)
Fixpoint set {V} (o : obj V) (k : jsstring) (v : V) : obj V :=
  match o with
  | [] => [(k, v)]
  | (k', v') :: o' =>
      if str_eqb k' k then (k', v) :: o' else (k', v') :: set o' k v
  end.

Definition isDigit (c : N) : bool := (N.leb 48 c && N.leb c 57)%bool.

Definition digitsValue (s : jsstring) : N :=
  fold_left (fun acc c => (10 * acc + (c - 48))%N) s 0%N.

(** An array index is the canonical decimal string of an integer in
    [0, 2^32 - 2]. *)
Definition arrayIndex (s : jsstring) : option N :=
  match s with
  | [] => None
  | c :: rest =>
      if (forallb isDigit s
          && (negb (N.eqb c 48) || match rest with [] => true | _ => false end)
          && N.ltb (digitsValue s) 4294967295)%bool
      then Some (digitsValue s)
      else None
  end.

Definition isArrayIndex (s : jsstring) : bool :=
  match arrayIndex s with Some _ => true | None => false end.

Fixpoint insertIndex (x : N * jsstring) (l : list (N * jsstring))
  : list (N * jsstring) :=
  match l with
  | [] => [x]
  | y :: l' => if N.leb (fst x) (fst y) then x :: l else y :: insertIndex x l'
  end.

Definition sortIndices (l : list (N * jsstring)) : list (N * jsstring) :=
  fold_right insertIndex [] l.

Definition indexKeys (ks : list jsstring) : list (N * jsstring) :=
  flat_map (fun k => match arrayIndex k with
                     | Some i => [(i, k)]
                     | None => []
                     end) ks.

(** The order of [Object.keys(o)]: array indices in ascending numeric order,
    then the other keys in creation order. *)
Definition propertyOrder (ks : list jsstring) : list jsstring :=
  map snd (sortIndices (indexKeys ks))
  ++ filter (fun k => negb (isArrayIndex k)) ks.

Definition own_keys {V} (o : obj V) : list jsstring := propertyOrder (keys o).

(** The properties of [o] under the keys [ks], read in that order. *)
Definition copyProperties {V} (o : obj V) (ks : list jsstring) : obj V :=
  flat_map (fun k => match get o k with
                     | Some v => [(k, v)]
                     | None => []
                     end) ks.

(** [{...o}]: a new object with the own properties of [o], created in
    [Object.keys] order. *)
Definition spread {V} (o : obj V) : obj V := copyProperties o (own_keys o).

(** *** The heap *)

(** Objects live in a heap and are passed by reference. *)
Definition ref := nat.
Definition heap (V : Type) := list (obj V).

Definition deref {V} (h : heap V) (r : ref) : option (obj V) := nth_error h r.

Definition alloc {V} (h : heap V) (o : obj V) : ref * heap V :=
  (List.length h, h ++ [o]).

(** *** Array.prototype.sort *)

(** The engine's sort. The comparator may throw ([None]), and the sort then
    throws. The laws are those of every engine: the sort returns when the
    comparator does, it permutes the array, and its result depends on the
    comparator only through the answers on the elements of the array. *)
Class ArraySort := {
  array_sort : forall {A : Type},
    (A -> A -> option Z) -> list A -> option (list A);
  array_sort_returns : forall A (cmp : A -> A -> option Z) l,
    (forall a b, In a l -> In b l -> cmp a b <> None) ->
    array_sort cmp l <> None;
  array_sort_perm : forall A (cmp : A -> A -> option Z) l l',
    array_sort cmp l = Some l' -> Permutation l l';
  array_sort_ext : forall A (c1 c2 : A -> A -> option Z) l,
    (forall a b, In a l -> In b l -> c1 a b = c2 a b) ->
    array_sort c1 l = array_sort c2 l
}.

(** A stable insertion sort: an element goes before the first element of the
    sorted rest that it does not come after. *)
Fixpoint insertBy {A} (cmp : A -> A -> option Z) (x : A) (l : list A)
  : option (list A) :=
  match l with
  | [] => Some [x]
  | y :: l' =>
      match cmp x y with
      | None => None
      | Some c =>
          if Z.leb c 0 then Some (x :: l)
          else option_map (cons y) (insertBy cmp x l')
      end
  end.

Fixpoint insertionSort {A} (cmp : A -> A -> option Z) (l : list A)
  : option (list A) :=
  match l with
  | [] => Some []
  | x :: l' =>
      match insertionSort cmp l' with
      | None => None
      | Some s => insertBy cmp x s
      end
  end.

End Js.

Import Js.

(** ** Facts about the run time *)

Section JsFacts.

Lemma str_eqb_spec (a b : jsstring) : reflect (a = b) (str_eqb a b).
Proof.
  revert b; induction a as [|x a IH]; intros [|y b]; simpl;
    try (constructor; congruence).
  destruct (N.eqb_spec x y) as [->|Hxy]; simpl.
  - destruct (IH b) as [->|Hab]; constructor; congruence.
  - constructor; congruence.
Qed.

Lemma str_eqb_refl (a : jsstring) : str_eqb a a = true.
Proof. destruct (str_eqb_spec a a); congruence. Qed.

Lemma str_lt_irrefl (a : jsstring) : str_lt a a = false.
Proof.
  induction a as [|x a IH]; simpl; [reflexivity|].
  now rewrite N.ltb_irrefl.
Qed.

Lemma str_lt_asym (a b : jsstring) : str_lt a b = true -> str_lt b a = false.
Proof.
  revert b; induction a as [|x a IH]; intros [|y b]; simpl; try congruence.
  destruct (N.ltb_spec x y) as [Hxy|Hxy]; destruct (N.ltb_spec y x) as [Hyx|Hyx];
    try congruence; try lia.
  apply IH.
Qed.

Lemma num_lt_asym (a b : Q) : num_lt a b = true -> num_lt b a = false.
Proof.
  unfold num_lt. rewrite <- (Qcompare_antisym a b).
  destruct (a ?= b)%Q; simpl; congruence.
Qed.

Lemma opt_lt_asym (a b : option Z) : opt_lt a b = true -> opt_lt b a = false.
Proof.
  destruct a as [x|], b as [y|]; simpl; try congruence.
  intros H. apply Z.ltb_lt in H. apply Z.ltb_ge. lia.
Qed.

Lemma opt_lt_absent (a b : option Z) :
  a = None \/ b = None -> opt_lt a b = false /\ opt_lt b a = false.
Proof.
  intros [->| ->]; simpl.
  - destruct b; auto.
  - destruct a; auto.
Qed.

Context {V : Type}.

Lemma get_None (o : obj V) (k : jsstring) :
  get o k = None <-> ~ In k (keys o).
Proof.
  induction o as [|[k' v] o IH]; simpl.
  - tauto.
  - destruct (str_eqb_spec k' k) as [->|Hne].
    + split; [discriminate | tauto].
    + rewrite IH. tauto.
Qed.

Lemma get_Some_In (o : obj V) (k : jsstring) (v : V) :
  get o k = Some v -> In k (keys o).
Proof.
  intros H. destruct (in_dec (list_eq_dec N.eq_dec) k (keys o)) as [Hin|Hnin];
    [exact Hin|].
  apply get_None in Hnin. congruence.
Qed.

Lemma In_get_Some (o : obj V) (k : jsstring) :
  In k (keys o) -> exists v, get o k = Some v.
Proof.
  intros Hin. destruct (get o k) as [v|] eqn:E; [now exists v|].
  apply get_None in E. contradiction.
Qed.

Lemma get_set (o : obj V) (k k' : jsstring) (v : V) :
  get (set o k v) k' = if str_eqb k k' then Some v else get o k'.
Proof.
  induction o as [|[k0 v0] o IH]; simpl.
  - reflexivity.
  - destruct (str_eqb_spec k0 k) as [->|Hne]; simpl.
    + destruct (str_eqb_spec k k'); reflexivity.
    + rewrite IH.
      destruct (str_eqb_spec k0 k') as [->|Hne'];
        destruct (str_eqb_spec k k') as [->|Hne'']; congruence.
Qed.

Lemma keys_set_fresh (o : obj V) (k : jsstring) (v : V) :
  ~ In k (keys o) -> keys (set o k v) = keys o ++ [k].
Proof.
  induction o as [|[k0 v0] o IH]; simpl; intros Hnin.
  - reflexivity.
  - destruct (str_eqb_spec k0 k) as [->|Hne]; [tauto|].
    simpl. f_equal. apply IH. tauto.
Qed.


End JsFacts.

(** The own-property order rearranges the keys, nothing more. *)

Lemma insertIndex_perm (x : N * jsstring) (l : list (N * jsstring)) :
  Permutation (insertIndex x l) (x :: l).
Proof.
  induction l as [|y l IH]; simpl; [reflexivity|].
  destruct (N.leb (fst x) (fst y)); [reflexivity|].
  rewrite IH. apply perm_swap.
Qed.

Lemma sortIndices_perm (l : list (N * jsstring)) :
  Permutation (sortIndices l) l.
Proof.
  induction l as [|x l IH]; simpl; [reflexivity|].
  rewrite insertIndex_perm. now constructor.
Qed.

Lemma indexKeys_filter (ks : list jsstring) :
  map snd (indexKeys ks) = filter isArrayIndex ks.
Proof.
  induction ks as [|k ks IH]; simpl; [reflexivity|].
  unfold isArrayIndex. destruct (arrayIndex k); simpl; now rewrite IH.
Qed.

Lemma filter_split_perm {A} (p : A -> bool) (l : list A) :
  Permutation (filter p l ++ filter (fun a => negb (p a)) l) l.
Proof.
  induction l as [|a l IH]; simpl; [reflexivity|].
  destruct (p a); simpl.
  - now constructor.
  - rewrite <- Permutation_middle. now constructor.
Qed.

Lemma propertyOrder_perm (ks : list jsstring) :
  Permutation (propertyOrder ks) ks.
Proof.
  unfold propertyOrder.
  rewrite (Permutation_map snd (sortIndices_perm (indexKeys ks))).
  rewrite indexKeys_filter. apply filter_split_perm.
Qed.

Lemma own_keys_perm {V} (o : obj V) : Permutation (own_keys o) (keys o).
Proof. apply propertyOrder_perm. Qed.

(** Reading keys off an object, as [spread] does. *)
Lemma copyProperties_keys {V} (o : obj V) (ks : list jsstring) :
  (forall k, In k ks -> In k (keys o)) ->
  keys (copyProperties o ks) = ks.
Proof.
  induction ks as [|k ks IH]; simpl; intros Hsub; [reflexivity|].
  destruct (In_get_Some o k (Hsub k (or_introl eq_refl))) as [v ->].
  simpl. f_equal. apply IH. intros k' Hk'. apply Hsub. now right.
Qed.

Lemma copyProperties_get {V} (o : obj V) (ks : list jsstring) (k : jsstring) :
  get (copyProperties o ks) k =
  if in_dec (list_eq_dec N.eq_dec) k ks then get o k else None.
Proof.
  induction ks as [|k0 ks IH]; [reflexivity|].
  assert (Hhead : get (copyProperties o (k0 :: ks)) k =
                  if str_eqb k0 k
                  then match get o k0 with
                       | Some v => Some v
                       | None => get (copyProperties o ks) k
                       end
                  else get (copyProperties o ks) k).
  { change (copyProperties o (k0 :: ks))
      with (match get o k0 with Some v => [(k0, v)] | None => [] end
            ++ copyProperties o ks).
    destruct (get o k0) as [v0|]; simpl; [|now destruct (str_eqb k0 k)].
    reflexivity. }
  change (get (copyProperties o (k0 :: ks)) k =
          if in_dec (list_eq_dec N.eq_dec) k (k0 :: ks)
          then get o k else None).
  rewrite Hhead, IH. clear Hhead IH. simpl.
  destruct (list_eq_dec N.eq_dec k0 k) as [Heq|Hne].
  - subst k0. rewrite str_eqb_refl.
    destruct (get o k) as [v|]; [reflexivity|].
    now destruct (in_dec (list_eq_dec N.eq_dec) k ks).
  - destruct (str_eqb_spec k0 k); [congruence|].
    now destruct (in_dec (list_eq_dec N.eq_dec) k ks).
Qed.

Lemma spread_keys {V} (o : obj V) : keys (spread o) = own_keys o.
Proof.
  apply copyProperties_keys. intros k Hk.
  apply (Permutation_in _ (own_keys_perm o)). exact Hk.
Qed.

Lemma spread_get {V} (o : obj V) (k : jsstring) : get (spread o) k = get o k.
Proof.
  unfold spread. rewrite copyProperties_get.
  destruct (in_dec (list_eq_dec N.eq_dec) k (own_keys o)) as [Hin|Hnin]; [reflexivity|].
  symmetry. apply get_None. intros Hk. apply Hnin.
  apply (Permutation_in _ (Permutation_sym (own_keys_perm o))). exact Hk.
Qed.

(** The insertion sort is an engine sort. *)

Section InsertionSort.

Context {A : Type}.
Implicit Types (cmp : A -> A -> option Z) (l : list A).

Lemma insertBy_perm cmp x l l' :
  insertBy cmp x l = Some l' -> Permutation (x :: l) l'.
Proof.
  revert l'; induction l as [|y l IH]; simpl; intros l' H.
  - injection H as <-. reflexivity.
  - destruct (cmp x y) as [c|]; [|discriminate].
    destruct (Z.leb c 0).
    + injection H as <-. reflexivity.
    + destruct (insertBy cmp x l) as [r|]; [|discriminate].
      injection H as <-. rewrite perm_swap. constructor. now apply IH.
Qed.

Lemma insertionSort_perm cmp l l' :
  insertionSort cmp l = Some l' -> Permutation l l'.
Proof.
  revert l'; induction l as [|x l IH]; simpl; intros l' H.
  - injection H as <-. reflexivity.
  - destruct (insertionSort cmp l) as [r|]; [|discriminate].
    rewrite (IH r eq_refl). now apply insertBy_perm with (cmp := cmp).
Qed.

Lemma insertBy_returns cmp x l :
  (forall b, In b l -> cmp x b <> None) -> insertBy cmp x l <> None.
Proof.
  induction l as [|y l IH]; simpl; intros H; [discriminate|].
  destruct (cmp x y) as [c|] eqn:E;
    [|intros _; now apply (H y (or_introl eq_refl))].
  destruct (Z.leb c 0); [discriminate|].
  destruct (insertBy cmp x l); [discriminate|].
  exfalso. apply IH; auto.
Qed.

Lemma insertionSort_returns cmp l :
  (forall a b, In a l -> In b l -> cmp a b <> None) ->
  insertionSort cmp l <> None.
Proof.
  induction l as [|x l IH]; simpl; intros H; [discriminate|].
  destruct (insertionSort cmp l) as [r|] eqn:E.
  - apply insertBy_returns. intros b Hb. apply H; [now left|right].
    apply (Permutation_in _ (Permutation_sym (insertionSort_perm _ _ _ E))).
    exact Hb.
  - exfalso. apply IH; [|reflexivity]. intros a b Ha Hb. apply H; now right.
Qed.

Lemma insertBy_ext (c1 c2 : A -> A -> option Z) x l :
  (forall b, In b l -> c1 x b = c2 x b) -> insertBy c1 x l = insertBy c2 x l.
Proof.
  induction l as [|y l IH]; simpl; intros H; [reflexivity|].
  rewrite <- (H y (or_introl eq_refl)).
  destruct (c1 x y) as [c|]; [|reflexivity].
  destruct (Z.leb c 0); [reflexivity|].
  rewrite IH; auto.
Qed.

Lemma insertionSort_ext (c1 c2 : A -> A -> option Z) l :
  (forall a b, In a l -> In b l -> c1 a b = c2 a b) ->
  insertionSort c1 l = insertionSort c2 l.
Proof.
  induction l as [|x l IH]; simpl; intros H; [reflexivity|].
  rewrite <- IH by (intros a b Ha Hb; apply H; now right).
  destruct (insertionSort c1 l) as [r|] eqn:E; [|reflexivity].
  apply insertBy_ext. intros b Hb. apply H; [now left|right].
  apply (Permutation_in _ (Permutation_sym (insertionSort_perm _ _ _ E))).
  exact Hb.
Qed.

End InsertionSort.


(** ** The container *)

(** What an API call answers, and how a method body completes. *)
Inductive Response (A : Type) := Resolves (a : A) | Rejects.
Arguments Resolves {A} a.
Arguments Rejects {A}.

Inductive Completion (A : Type) := Fulfilled (a : A) | Threw.
Arguments Fulfilled {A} a.
Arguments Threw {A}.

Section TriggerContainer.

(** The domain types of [../Domain], which the container passes around
    without looking inside, and the two domain functions it calls. *)
Context {Trigger TriggerState Event Maintenance Status : Type}.
Variable getStatusWeight : Status -> Z.
Variable getMaintenanceTime : Maintenance -> Z.

Context {engine : ArraySort}.

(** The fields of a metric that the container reads; [None] is an absent
    field. *)
Record Metric := {
  state : Status;
  event_timestamp : option Z;
  value : option Q
}.

Record TriggerEvents := {
  total : Z;
  list_ : list Event;
  page : Z;
  size : Z
}.

Inductive Sorting := SortState | SortName | SortEvent | SortValue.

Definition Sorting_eqb (a b : Sorting) : bool :=
  match a, b with
  | SortState, SortState | SortName, SortName
  | SortEvent, SortEvent | SortValue, SortValue => true
  | _, _ => false
  end.

(** *** Component state *)

Record State := {
  loading : bool;
  error : option jsstring;
  trigger : option Trigger;
  triggerState : option TriggerState;
  triggerEvents : option TriggerEvents;
  sorting : Sorting;
  sortingDown : bool
}.

Definition initialState : State := {|
  loading := true;
  error := None;
  trigger := None;
  triggerState := None;
  triggerEvents := None;
  sorting := SortValue;
  sortingDown := true
|}.

(** The argument of [setState]: the fields it mentions. *)
Record Patch := {
  p_loading : option bool;
  p_error : option (option jsstring);
  p_trigger : option (option Trigger);
  p_triggerState : option (option TriggerState);
  p_triggerEvents : option (option TriggerEvents);
  p_sorting : option Sorting;
  p_sortingDown : option bool
}.

Definition orKeep {A} (old : A) (new : option A) : A :=
  match new with Some a => a | None => old end.

(** [setState] merges the patch into the state in one step. *)
Definition merge (s : State) (p : Patch) : State := {|
  loading := orKeep (loading s) (p_loading p);
  error := orKeep (error s) (p_error p);
  trigger := orKeep (trigger s) (p_trigger p);
  triggerState := orKeep (triggerState s) (p_triggerState p);
  triggerEvents := orKeep (triggerEvents s) (p_triggerEvents p);
  sorting := orKeep (sorting s) (p_sorting p);
  sortingDown := orKeep (sortingDown s) (p_sortingDown p)
|}.

(** *** The Moira API *)

(** The six operations of [IMoiraApi] the container calls, each with what the
    service answers. The fields carry the prefix [api_]: [setMaintenance] is
    also a method of the container. The map given to [setMaintenance] holds
    numbers, [None] being [NaN]. *)
Record MoiraApi := {
  api_getTrigger : jsstring -> Response Trigger;
  api_getTriggerState : jsstring -> Response TriggerState;
  api_getTriggerEvents : jsstring -> Response TriggerEvents;
  api_delThrottling : jsstring -> Response unit;
  api_setMaintenance : jsstring -> obj (option Z) -> Response unit;
  api_delMetric : jsstring -> jsstring -> Response unit
}.

(** [props.moiraApi] and [props.match.params.id]; the route parameter is a
    string or [undefined]. *)
Record Props := {
  moiraApi : MoiraApi;
  params_id : option jsstring
}.

(** *** Asynchronous methods *)

Inductive ApiCall :=
| CallGetTrigger (id : jsstring)
| CallGetTriggerState (id : jsstring)
| CallGetTriggerEvents (id : jsstring)
| CallDelThrottling (id : jsstring)
| CallSetMaintenance (id : jsstring) (data : obj (option Z))
| CallDelMetric (id : jsstring) (metric : jsstring).

(** What a method does to the outside, in order. *)
Inductive Effect :=
| SetState (p : Patch)
| Call (c : ApiCall).

Record Run (A : Type) := {
  completion : Completion A;
  final : State;
  trace : list Effect
}.
Arguments completion {A} r.
Arguments final {A} r.
Arguments trace {A} r.

(** An asynchronous method body: from the component state it starts in to
    how it completes, the state it leaves and the effects it performed. *)
Definition Async (A : Type) := State -> Run A.

Definition ret {A} (a : A) : Async A :=
  fun s => {| completion := Fulfilled a; final := s; trace := [] |}.

Definition bind {A B} (m : Async A) (k : A -> Async B) : Async B :=
  fun s =>
    let r := m s in
    match completion r with
    | Fulfilled a =>
        let r' := k a (final r) in
        {| completion := completion r';
           final := final r';
           trace := trace r ++ trace r' |}
    | Threw =>
        {| completion := Threw; final := final r; trace := trace r |}
    end.

(** [try { m } catch (error) { handler }] *)
Definition tryCatch {A} (m handler : Async A) : Async A :=
  fun s =>
    let r := m s in
    match completion r with
    | Fulfilled _ => r
    | Threw =>
        let r' := handler (final r) in
        {| completion := completion r';
           final := final r';
           trace := trace r ++ trace r' |}
    end.

(** [this.setState(p)] *)
Definition setState (p : Patch) : Async unit :=
  fun s => {| completion := Fulfilled tt; final := merge s p;
              trace := [SetState p] |}.

(** [await call]: the call is made; a rejection is thrown at the [await]. *)
Definition await {A} (c : ApiCall) (response : Response A) : Async A :=
  fun s =>
    {| completion := match response with
                     | Resolves a => Fulfilled a
                     | Rejects => Threw
                     end;
       final := s;
       trace := [Call c] |}.

Notation "x <- m ;; k" := (bind m (fun x => k))
  (at level 61, m at next level, right associativity).
Notation "m ;; k" := (bind m (fun _ => k))
  (at level 61, right associativity).

(** The states a renderer can see while a method runs from [s]: [s] itself
    and the state after each [setState]. *)
Fixpoint commits (s : State) (t : list Effect) : list State :=
  match t with
  | [] => []
  | SetState p :: t' => merge s p :: commits (merge s p) t'
  | Call _ :: t' => commits s t'
  end.

Definition observable (s : State) (t : list Effect) : list State :=
  s :: commits s t.

Definition networkError : jsstring := lit "Network error. Please, reload page".

Definition getData (props : Props) : Async unit :=
  let api := moiraApi props in
  match params_id props with
  | None => ret tt
  | Some id =>
      tryCatch
        (trigger <- await (CallGetTrigger id) (api_getTrigger api id) ;;
         triggerState <-
           await (CallGetTriggerState id) (api_getTriggerState api id) ;;
         triggerEvents <-
           await (CallGetTriggerEvents id) (api_getTriggerEvents api id) ;;
         setState {| p_loading := Some false;
                     p_error := None;
                     p_trigger := Some (Some trigger);
                     p_triggerState := Some (Some triggerState);
                     p_triggerEvents := Some (Some triggerEvents);
                     p_sorting := None;
                     p_sortingDown := None |})
        (setState {| p_loading := None;
                     p_error := Some (Some networkError);
                     p_trigger := None;
                     p_triggerState := None;
                     p_triggerEvents := None;
                     p_sorting := None;
                     p_sortingDown := None |})
  end.

Definition loadingTrue : Patch := {|
  p_loading := Some true; p_error := None; p_trigger := None;
  p_triggerState := None; p_triggerEvents := None;
  p_sorting := None; p_sortingDown := None
|}.

(** The last statement of each mutation, [this.getData(this.props)], is not
    awaited; its effects still follow the write call's, which is what the
    sequencing below records. *)
Definition disableTrhrottling (props : Props) (triggerId : jsstring)
  : Async unit :=
  setState loadingTrue ;;
  await (CallDelThrottling triggerId)
        (api_delThrottling (moiraApi props) triggerId) ;;
  getData props.

(** [moment.utc()], [.add(n, 'minutes')] and [.unix()]. A moment wraps a
    [Date]: a time value in milliseconds since the epoch, or none when the
    date is invalid. [add] sets the time to the sum, which [Date] clips to
    its range, and leaves an invalid moment as it is; [unix()] is the floor
    of the seconds, [NaN] ([None]) for an invalid moment. *)
Definition moment_utc (now : Z) : option Z := TimeClip now.

Definition moment_add_minutes (m : option Z) (n : Z) : option Z :=
  match m with
  | Some t => TimeClip (t + n * 60000)
  | None => None
  end.

Definition moment_unix (m : option Z) : option Z :=
  match m with
  | Some t => Some (t / 1000)
  | None => None
  end.

(** [now] is the clock reading, in milliseconds, that [moment.utc()] takes. *)
Definition setMaintenance (now : Z) (props : Props) (triggerId : jsstring)
    (maintenance : Maintenance) (metric : jsstring) : Async unit :=
  setState loadingTrue ;;
  let maintenanceTime := getMaintenanceTime maintenance in
  let data :=
    set [] metric
        (if maintenanceTime >? 0
         then moment_unix
                (moment_add_minutes (moment_utc now) maintenanceTime)
         else Some maintenanceTime) in
  await (CallSetMaintenance triggerId data)
        (api_setMaintenance (moiraApi props) triggerId data) ;;
  getData props.

Definition removeMetric (props : Props) (triggerId metric : jsstring)
  : Async unit :=
  setState loadingTrue ;;
  await (CallDelMetric triggerId metric)
        (api_delMetric (moiraApi props) triggerId metric) ;;
  getData props.

(** *** Sorting *)

(** [/[^a-zA-Z0-9-.]/g]: the code units the pattern matches. *)
Definition regex (c : N) : bool :=
  negb ((N.leb 97 c && N.leb c 122)
        || (N.leb 65 c && N.leb c 90)
        || (N.leb 48 c && N.leb c 57)
        || N.eqb c 45
        || N.eqb c 46).

(** [s.replace(re, '')] with a global pattern of single code units. *)
Definition replace_empty (re : N -> bool) (s : jsstring) : jsstring :=
  filter (fun c => negb (re c)) s.

(** The four comparators of [sortingFn]. [metrics[a].state] throws when
    [metrics[a]] is [undefined]: the result is then [None]. *)
Definition sortingFn_state (metrics : obj Metric) (sortingDown : bool)
    (a b : jsstring) : option Z :=
  match get metrics a, get metrics b with
  | Some ma, Some mb =>
      let A := getStatusWeight (state ma) in
      let B := getStatusWeight (state mb) in
      Some (if A <? B then (if sortingDown then -1 else 1)
            else if A >? B then (if sortingDown then 1 else -1)
            else 0)
  | _, _ => None
  end.

Definition sortingFn_name (sortingDown : bool) (a b : jsstring) : option Z :=
  let A := toLowerCase (replace_empty regex (trim a)) in
  let B := toLowerCase (replace_empty regex (trim b)) in
  Some (if str_lt A B then (if sortingDown then -1 else 1)
        else if str_gt A B then (if sortingDown then 1 else -1)
        else 0).

Definition sortingFn_event (metrics : obj Metric) (sortingDown : bool)
    (a b : jsstring) : option Z :=
  match get metrics a, get metrics b with
  | Some ma, Some mb =>
      let A := event_timestamp ma in
      let B := event_timestamp mb in
      Some (if opt_lt A B then (if sortingDown then -1 else 1)
            else if opt_gt A B then (if sortingDown then 1 else -1)
            else 0)
  | _, _ => None
  end.

Definition sortingFn_value (metrics : obj Metric) (sortingDown : bool)
    (a b : jsstring) : option Z :=
  match get metrics a, get metrics b with
  | Some ma, Some mb =>
      let A := or_zero (value ma) in
      let B := or_zero (value mb) in
      Some (if num_lt A B then (if sortingDown then -1 else 1)
            else if num_gt A B then (if sortingDown then 1 else -1)
            else 0)
  | _, _ => None
  end.

Definition sortingFn (metrics : obj Metric) (sortingDown : bool)
    (sorting : Sorting) : jsstring -> jsstring -> option Z :=
  match sorting with
  | SortState => sortingFn_state metrics sortingDown
  | SortName => sortingFn_name sortingDown
  | SortEvent => sortingFn_event metrics sortingDown
  | SortValue => sortingFn_value metrics sortingDown
  end.

(** One step of the [reduce]: [{ ...data, [key]: metrics[key] }], a new
    object. The output is typed as a map of metrics, so an [undefined]
    [metrics[key]] has no place in it ([None]). *)
Definition reduceStep (m : obj Metric) (acc : option (ref * heap Metric))
    (key : jsstring) : option (ref * heap Metric) :=
  match acc with
  | None => None
  | Some (data, h) =>
      match deref h data, get m key with
      | Some d, Some v => Some (alloc h (set (spread d) key v))
      | _, _ => None
      end
  end.

(** [sortMetrics(metrics)] in state [s], with [metrics] a reference into the
    heap [h]: the reference of the result and the heap after the call.
    [None] stands for a thrown error, and for a reference that is not in the
    heap, which no program holds. *)
Definition sortMetrics (s : State) (h : heap Metric) (metrics : ref)
  : option (ref * heap Metric) :=
  match deref h metrics with
  | None => None
  | Some m =>
      match array_sort (sortingFn m (sortingDown s) (sorting s))
                       (own_keys m) with
      | None => None
      | Some sorted => fold_left (reduceStep m) sorted (Some (alloc h []))
      end
  end.

(** *** The sort column handler of [render] *)

(** [onSort], as rendered in state [s]. *)
Definition onSort (s : State) (newSorting : Sorting) : Async unit :=
  if Sorting_eqb newSorting (sorting s)
  then setState {| p_loading := None; p_error := None; p_trigger := None;
                   p_triggerState := None; p_triggerEvents := None;
                   p_sorting := None;
                   p_sortingDown := Some (negb (sortingDown s)) |}
  else setState {| p_loading := None; p_error := None; p_trigger := None;
                   p_triggerState := None; p_triggerEvents := None;
                   p_sorting := Some newSorting;
                   p_sortingDown := Some true |}.

(** A click on a sort column in state [s]: the handler the current render
    installed runs on the current state. *)
Definition selectSorting (s : State) (newSorting : Sorting) : State :=
  final (onSort s newSorting s).

(** *** Vocabulary of the statements *)

(** The two patches of [getData]. *)
Definition snapshotPatch (t : Trigger) (ts : TriggerState)
    (te : TriggerEvents) : Patch := {|
  p_loading := Some false; p_error := None;
  p_trigger := Some (Some t);
  p_triggerState := Some (Some ts);
  p_triggerEvents := Some (Some te);
  p_sorting := None; p_sortingDown := None
|}.

Definition errorPatch : Patch := {|
  p_loading := None; p_error := Some (Some networkError); p_trigger := None;
  p_triggerState := None; p_triggerEvents := None;
  p_sorting := None; p_sortingDown := None
|}.

(** Some read of the cycle for [id] rejects. *)
Definition someReadRejects (api : MoiraApi) (id : jsstring) : Prop :=
  api_getTrigger api id = Rejects
  \/ api_getTriggerState api id = Rejects
  \/ api_getTriggerEvents api id = Rejects.

Definition sameData (s s' : State) : Prop :=
  trigger s' = trigger s
  /\ triggerState s' = triggerState s
  /\ triggerEvents s' = triggerEvents s.

Definition isWrite (e : Effect) : bool :=
  match e with
  | Call (CallDelThrottling _) | Call (CallSetMaintenance _ _)
  | Call (CallDelMetric _ _) => true
  | _ => false
  end.

Definition writeCalls (t : list Effect) : nat :=
  List.length (filter isWrite t).

Definition isRead (e : Effect) : bool :=
  match e with
  | Call (CallGetTrigger _) | Call (CallGetTriggerState _)
  | Call (CallGetTriggerEvents _) => true
  | _ => false
  end.

(** The shape of a mutation's run [r] from [s], with [write] its write call
    and [response] what the API answers to it: the loading patch, the write
    call and, when the write resolves, the run of [getData]; when it rejects,
    nothing more. *)
Definition mutationRun (props : Props) (s : State) (r : Run unit)
    (write : ApiCall) (response : Response unit) : Prop :=
  let s1 := merge s loadingTrue in
  exists rest,
    trace r = SetState loadingTrue :: Call write :: rest
    /\ writeCalls (trace r) = 1%nat
    /\ match response with
       | Resolves _ =>
           rest = trace (getData props s1)
           /\ final r = final (getData props s1)
           /\ completion r = completion (getData props s1)
       | Rejects =>
           rest = [] /\ final r = s1 /\ completion r = Threw
       end.

(** The template as the specification words it: after the write call the
    run goes on with [getData], whatever the write call answers. *)
Definition refreshInvoked (props : Props) (s : State) (r : Run unit)
    (write : ApiCall) : Prop :=
  trace r = SetState loadingTrue :: Call write
            :: trace (getData props (merge s loadingTrue)).

(** The effective timestamp [setMaintenance] transmits; [None] is [NaN]. *)
Definition effectiveTimestamp (now maintenanceTime : Z) : option Z :=
  if maintenanceTime >? 0
  then moment_unix (moment_add_minutes (moment_utc now) maintenanceTime)
  else Some maintenanceTime.

(** The name a metric is compared under: trimmed, reduced to
    [A-Za-z0-9-.], lowercased. *)
Definition normalizeName (name : jsstring) : jsstring :=
  toLowerCase (replace_empty regex (trim name)).

(** The sign convention of a comparator, for the outcomes [lt] of [A < B]
    and [gt] of [A > B]. *)
Definition signConvention (lt gt sortingDown : bool) (result : option Z)
  : Prop :=
  (lt = true -> result = Some (if sortingDown then -1 else 1))
  /\ (gt = true -> result = Some (if sortingDown then 1 else -1))
  /\ (lt = false -> gt = false -> result = Some 0).


(** The object the [reduce] of [sortMetrics] builds from [data] over the
    keys [sorted]. *)
Definition reduceObject (m : obj Metric) (sorted : list jsstring)
    (data : obj Metric) : obj Metric :=
  fold_left (fun d key => match get m key with
                          | Some v => set (spread d) key v
                          | None => d
                          end) sorted data.

(** The creation order of the keys that [reduce] leaves. *)
Definition keysAfter (ks : list jsstring) (sorted : list jsstring)
  : list jsstring :=
  fold_left (fun K key => propertyOrder K ++ [key]) sorted ks.

(** The object [sortMetrics] returns, read from the heap it leaves. *)
Definition sortMetricsResult (s : State) (h : heap Metric) (metrics : ref)
  : option (obj Metric) :=
  match sortMetrics s h metrics with
  | Some (r, h') => deref h' r
  | None => None
  end.

(** *** The fetch cycle *)

Lemma getData_run (props : Props) (id : jsstring) (s : State) :
  params_id props = Some id ->
  getData props s =
  match api_getTrigger (moiraApi props) id with
  | Rejects =>
      {| completion := Fulfilled tt; final := merge s errorPatch;
         trace := [Call (CallGetTrigger id); SetState errorPatch] |}
  | Resolves t =>
      match api_getTriggerState (moiraApi props) id with
      | Rejects =>
          {| completion := Fulfilled tt; final := merge s errorPatch;
             trace := [Call (CallGetTrigger id); Call (CallGetTriggerState id);
                       SetState errorPatch] |}
      | Resolves ts =>
          match api_getTriggerEvents (moiraApi props) id with
          | Rejects =>
              {| completion := Fulfilled tt; final := merge s errorPatch;
                 trace := [Call (CallGetTrigger id);
                           Call (CallGetTriggerState id);
                           Call (CallGetTriggerEvents id);
                           SetState errorPatch] |}
          | Resolves te =>
              {| completion := Fulfilled tt;
                 final := merge s (snapshotPatch t ts te);
                 trace := [Call (CallGetTrigger id);
                           Call (CallGetTriggerState id);
                           Call (CallGetTriggerEvents id);
                           SetState (snapshotPatch t ts te)] |}
          end
      end
  end.
Proof.
  intros Hid. unfold getData. rewrite Hid.
  unfold tryCatch, bind, await, setState. simpl.
  destruct (api_getTrigger (moiraApi props) id) as [t|]; simpl;
    [|reflexivity].
  destruct (api_getTriggerState (moiraApi props) id) as [ts|]; simpl;
    [|reflexivity].
  destruct (api_getTriggerEvents (moiraApi props) id) as [te|]; simpl;
    reflexivity.
Qed.

(** [getData] never makes a write call, and never throws. *)
Lemma getData_no_write (props : Props) (s : State) :
  writeCalls (trace (getData props s)) = 0%nat
  /\ completion (getData props s) = Fulfilled tt.
Proof.
  destruct (params_id props) as [id|] eqn:Hid.
  - rewrite (getData_run props id s Hid).
    destruct (api_getTrigger (moiraApi props) id);
      [destruct (api_getTriggerState (moiraApi props) id);
       [destruct (api_getTriggerEvents (moiraApi props) id)|]|];
      split; reflexivity.
  - unfold getData. rewrite Hid. split; reflexivity.
Qed.

(** C1. For every trigger ID that is a string (the empty one included), a
    cycle whose three reads resolve performs one [setState], which carries
    [loading = false] and the three fetched values together: the only states
    to observe are the one before and the one after, with all three fields
    set. A cycle in which a read rejects leaves the three fields, in every
    state to observe, as they were. *)
Theorem getData_all_or_nothing (props : Props) (id : jsstring) (s : State) :
  params_id props = Some id ->
  (forall t ts te,
      api_getTrigger (moiraApi props) id = Resolves t ->
      api_getTriggerState (moiraApi props) id = Resolves ts ->
      api_getTriggerEvents (moiraApi props) id = Resolves te ->
      filter (fun e => negb (isRead e)) (trace (getData props s))
        = [SetState (snapshotPatch t ts te)]
      /\ observable s (trace (getData props s)) = [s; final (getData props s)]
      /\ loading (final (getData props s)) = false
      /\ trigger (final (getData props s)) = Some t
      /\ triggerState (final (getData props s)) = Some ts
      /\ triggerEvents (final (getData props s)) = Some te)
  /\ (someReadRejects (moiraApi props) id ->
      forall s', In s' (observable s (trace (getData props s))) ->
                 sameData s s').
Proof.
  intros Hid. rewrite (getData_run props id s Hid). split.
  - intros t ts te -> -> ->. simpl. repeat split; reflexivity.
  - intros Hrej s' Hin. unfold someReadRejects in Hrej.
    destruct (api_getTrigger (moiraApi props) id) as [t|];
      [destruct (api_getTriggerState (moiraApi props) id) as [ts|];
       [destruct (api_getTriggerEvents (moiraApi props) id) as [te|]|]|];
      try (destruct Hrej as [Hrej|[Hrej|Hrej]]; discriminate);
      simpl in Hin; destruct Hin as [<-|[<-|[]]];
      repeat split; reflexivity.
Qed.

(** C2. When a read of the cycle rejects, the cycle ends with [error] set to
    the fixed message, the three data fields as before the call, and
    [loading] as before the call: it is not set to false. *)
Theorem getData_failure (props : Props) (id : jsstring) (s : State) :
  params_id props = Some id ->
  someReadRejects (moiraApi props) id ->
  error (final (getData props s))
    = Some (lit "Network error. Please, reload page")
  /\ trigger (final (getData props s)) = trigger s
  /\ triggerState (final (getData props s)) = triggerState s
  /\ triggerEvents (final (getData props s)) = triggerEvents s
  /\ loading (final (getData props s)) = loading s
  /\ forall e, In e (trace (getData props s)) ->
               e = SetState errorPatch \/ isRead e = true.
Proof.
  intros Hid Hrej. rewrite (getData_run props id s Hid).
  unfold someReadRejects in Hrej.
  destruct (api_getTrigger (moiraApi props) id) as [t|];
    [destruct (api_getTriggerState (moiraApi props) id) as [ts|];
     [destruct (api_getTriggerEvents (moiraApi props) id) as [te|]|]|];
    try (destruct Hrej as [Hrej|[Hrej|Hrej]]; discriminate);
    simpl; repeat split; try reflexivity;
    intros e He; repeat (destruct He as [<-|He]; [auto|]); contradiction.
Qed.

(** *** Mutation dispatch *)

(** C3, as the code has it. Each of the three mutations sets
    [loading = true] before anything else, makes exactly one write call and,
    when the write resolves, goes on with [getData]; when the write rejects,
    the rejection leaves the method at the [await]: [getData] is not called
    and the state stays at [loading = true]. *)
Theorem mutation_template (props : Props) (s : State) :
  (forall triggerId,
      mutationRun props s (disableTrhrottling props triggerId s)
        (CallDelThrottling triggerId)
        (api_delThrottling (moiraApi props) triggerId))
  /\ (forall now triggerId maintenance metric,
      let data :=
        [(metric, effectiveTimestamp now (getMaintenanceTime maintenance))] in
      mutationRun props s
        (setMaintenance now props triggerId maintenance metric s)
        (CallSetMaintenance triggerId data)
        (api_setMaintenance (moiraApi props) triggerId data))
  /\ (forall triggerId metric,
      mutationRun props s (removeMetric props triggerId metric s)
        (CallDelMetric triggerId metric)
        (api_delMetric (moiraApi props) triggerId metric)).
Proof.
  assert (Hshape : forall write (response : Response unit),
    isWrite (Call write) = true ->
    mutationRun props s
      ((setState loadingTrue ;; await write response ;; getData props) s)
      write response).
  { intros write response Hwrite. unfold mutationRun.
    destruct (getData_no_write props (merge s loadingTrue)) as [Hw Hc].
    unfold bind, setState, await. simpl.
    destruct response as [[]|]; simpl.
    - exists (trace (getData props (merge s loadingTrue))).
      repeat split; try reflexivity.
      unfold writeCalls in *.
      change (filter isWrite (SetState loadingTrue :: Call write
                :: trace (getData props (merge s loadingTrue))))
        with (if isWrite (Call write)
              then Call write
                   :: filter isWrite
                        (trace (getData props (merge s loadingTrue)))
              else filter isWrite
                     (trace (getData props (merge s loadingTrue)))).
      rewrite Hwrite. simpl. now rewrite Hw.
    - exists []. repeat split; try reflexivity.
      unfold writeCalls.
      change (filter isWrite [SetState loadingTrue; Call write])
        with (if isWrite (Call write) then [Call write] else []).
      now rewrite Hwrite. }
  split; [|split].
  - intros triggerId. now apply Hshape.
  - intros now triggerId maintenance metric data. now apply Hshape.
  - intros triggerId metric. now apply Hshape.
Qed.

Lemma TimeClip_in (t : Z) : inDateRange t -> TimeClip t = Some t.
Proof.
  unfold inDateRange, TimeClip. intros H.
  destruct (Z.leb_spec (Z.abs t) maxTime); [reflexivity|lia].
Qed.

Lemma TimeClip_out (t : Z) : ~ inDateRange t -> TimeClip t = None.
Proof.
  unfold inDateRange, TimeClip. intros H.
  destruct (Z.leb_spec (Z.abs t) maxTime); [contradiction|reflexivity].
Qed.

(** C9. [setMaintenance] writes a map with the one key [metric]. For a
    positive duration its value is the Unix time of now plus that many
    minutes, as long as now and the sum are times a [Date] can hold; outside
    that range the value is [NaN]. For a duration of zero or less it is the
    duration itself: 0 for 0. *)
Theorem setMaintenance_payload (now : Z) (props : Props)
    (triggerId : jsstring) (maintenance : Maintenance) (metric : jsstring)
    (s : State) :
  let maintenanceTime := getMaintenanceTime maintenance in
  let timestamp := effectiveTimestamp now maintenanceTime in
  (exists rest,
      trace (setMaintenance now props triggerId maintenance metric s)
      = SetState loadingTrue
        :: Call (CallSetMaintenance triggerId [(metric, timestamp)])
        :: rest
      /\ writeCalls rest = 0%nat)
  /\ (0 < maintenanceTime ->
      inDateRange now ->
      inDateRange (now + maintenanceTime * 60000) ->
      timestamp = Some ((now + maintenanceTime * 60000) / 1000)
      /\ timestamp = Some (now / 1000 + maintenanceTime * 60))
  /\ (0 < maintenanceTime ->
      ~ (inDateRange now /\ inDateRange (now + maintenanceTime * 60000)) ->
      timestamp = None)
  /\ (maintenanceTime <= 0 -> timestamp = Some maintenanceTime)
  /\ (maintenanceTime = 0 -> timestamp = Some 0).
Proof.
  intros maintenanceTime timestamp. split; [|split; [|split; [|split]]].
  - unfold setMaintenance, bind, setState, await. simpl.
    fold maintenanceTime.
    destruct (getData_no_write props (merge s loadingTrue)) as [Hw _].
    destruct (api_setMaintenance _ _ _) as [[]|]; simpl.
    + eexists. split; [reflexivity|]. exact Hw.
    + eexists. split; reflexivity.
  - intros Hpos Hnow Hsum. subst timestamp.
    unfold effectiveTimestamp, moment_utc, moment_add_minutes, moment_unix.
    destruct (Z.gtb_spec maintenanceTime 0) as [_|Hle]; [|lia].
    rewrite (TimeClip_in now Hnow), (TimeClip_in _ Hsum).
    split; [reflexivity|]. f_equal.
    replace (maintenanceTime * 60000) with (maintenanceTime * 60 * 1000)
      by lia.
    apply Z.div_add. lia.
  - intros Hpos Hout. subst timestamp.
    unfold effectiveTimestamp, moment_utc, moment_add_minutes, moment_unix.
    destruct (Z.gtb_spec maintenanceTime 0) as [_|Hle]; [|lia].
    unfold TimeClip at 1.
    destruct (Z.leb_spec (Z.abs now) maxTime) as [Hnow|Hnow];
      [|reflexivity].
    rewrite TimeClip_out; [reflexivity|].
    intros Hsum. apply Hout. split; assumption.
  - intros Hle. subst timestamp. unfold effectiveTimestamp.
    destruct (Z.gtb_spec maintenanceTime 0); [lia|reflexivity].
  - intros Hz. subst timestamp. unfold effectiveTimestamp.
    rewrite Hz. reflexivity.
Qed.

(** *** Sort selection *)

(** C8. Selecting the active sort key flips [sortingDown] and keeps
    [sorting], so that selecting it twice gives the state back; selecting
    another key adopts it and sets [sortingDown] to true. *)
Theorem sort_selection_toggle (s : State) (newSorting : Sorting) :
  (newSorting = sorting s ->
      sorting (selectSorting s newSorting) = sorting s
      /\ sortingDown (selectSorting s newSorting) = negb (sortingDown s)
      /\ selectSorting (selectSorting s newSorting) newSorting = s)
  /\ (newSorting <> sorting s ->
      sorting (selectSorting s newSorting) = newSorting
      /\ sortingDown (selectSorting s newSorting) = true).
Proof.
  destruct s as [l e t ts te k d]. unfold selectSorting, onSort. simpl. split.
  - intros ->. destruct k, d; simpl; repeat split; reflexivity.
  - intros Hne. destruct newSorting, k; simpl; try (split; reflexivity);
      congruence.
Qed.

(** *** The comparators *)

Lemma sortingFn_defined (m : obj Metric) (sd : bool) (k : Sorting)
    (a b : jsstring) :
  In a (keys m) -> In b (keys m) -> sortingFn m sd k a b <> None.
Proof.
  intros Ha Hb.
  destruct (In_get_Some m a Ha) as [ma Ea].
  destruct (In_get_Some m b Hb) as [mb Eb].
  destruct k; simpl;
    unfold sortingFn_state, sortingFn_name, sortingFn_event, sortingFn_value;
    rewrite ?Ea, ?Eb; discriminate.
Qed.

Lemma signConvention_holds (lt gt sd : bool) :
  (lt = true -> gt = false) ->
  signConvention lt gt sd
    (Some (if lt then (if sd then -1 else 1)
           else if gt then (if sd then 1 else -1)
           else 0)).
Proof.
  intros Hasym. unfold signConvention. destruct lt, gt; repeat split;
    try congruence; intros; try reflexivity.
  specialize (Hasym eq_refl). discriminate.
Qed.

(** What [replace] leaves is within [a-zA-Z0-9-.]: Basic Latin, on which
    [lower] is all of [toLowerCase]. *)
Lemma replace_empty_regex (name : jsstring) :
  Forall (fun c => regex c = false) (replace_empty regex name).
Proof.
  apply Forall_forall. intros c Hc. unfold replace_empty in Hc.
  apply filter_In in Hc. destruct Hc as [_ Hc].
  now destruct (regex c).
Qed.

(** C5. Each of the four comparators returns -1 for [A < B] when
    [sortingDown] is true and 1 when it is false, 1 (resp. -1) for [A > B],
    and 0 when neither holds, [A] and [B] being the keys it extracts. *)
Theorem comparators_sign_convention (metrics : obj Metric)
    (sortingDown : bool) (a b : jsstring) (ma mb : Metric) :
  get metrics a = Some ma ->
  get metrics b = Some mb ->
  signConvention
    (getStatusWeight (state ma) <? getStatusWeight (state mb))
    (getStatusWeight (state ma) >? getStatusWeight (state mb))
    sortingDown (sortingFn metrics sortingDown SortState a b)
  /\ signConvention
       (str_lt (normalizeName a) (normalizeName b))
       (str_gt (normalizeName a) (normalizeName b))
       sortingDown (sortingFn metrics sortingDown SortName a b)
  /\ signConvention
       (opt_lt (event_timestamp ma) (event_timestamp mb))
       (opt_gt (event_timestamp ma) (event_timestamp mb))
       sortingDown (sortingFn metrics sortingDown SortEvent a b)
  /\ signConvention
       (num_lt (or_zero (value ma)) (or_zero (value mb)))
       (num_gt (or_zero (value ma)) (or_zero (value mb)))
       sortingDown (sortingFn metrics sortingDown SortValue a b).
Proof.
  intros Ea Eb. simpl.
  unfold sortingFn_state, sortingFn_name, sortingFn_event, sortingFn_value.
  rewrite Ea, Eb.
  split; [|split; [|split]]; apply signConvention_holds.
  - intros H. apply Z.ltb_lt in H. rewrite Z.gtb_ltb. apply Z.ltb_ge. lia.
  - apply str_lt_asym.
  - apply opt_lt_asym.
  - apply num_lt_asym.
Qed.

(** C10. The event comparator returns 0 as soon as one of the two metrics
    has no [event_timestamp], in either argument order and direction; the
    value comparator does not tie the same two metrics when the one with
    no [value] meets a positive one, nor is the tie transitive. *)
Theorem event_absent_ties (metrics : obj Metric) (sortingDown : bool)
    (a b : jsstring) (ma mb : Metric) :
  get metrics a = Some ma ->
  get metrics b = Some mb ->
  event_timestamp ma = None \/ event_timestamp mb = None ->
  (sortingFn metrics sortingDown SortEvent a b = Some 0
   /\ sortingFn metrics sortingDown SortEvent b a = Some 0)
  /\ (forall (st : Status) (x u y : jsstring),
      x <> u -> x <> y -> u <> y ->
      let m := [(x, {| state := st; event_timestamp := Some 1;
                       value := Some 1%Q |});
                (u, {| state := st; event_timestamp := None;
                       value := None |});
                (y, {| state := st; event_timestamp := Some 2;
                       value := Some 2%Q |})] in
      sortingFn m sortingDown SortEvent x u = Some 0
      /\ sortingFn m sortingDown SortEvent u y = Some 0
      /\ sortingFn m sortingDown SortEvent x y
         = Some (if sortingDown then -1 else 1)
      /\ sortingFn m sortingDown SortValue u y
         = Some (if sortingDown then -1 else 1)).
Proof.
  intros Ea Eb Habs. split.
  - simpl. unfold sortingFn_event, opt_gt. rewrite Ea, Eb.
    destruct (opt_lt_absent _ _ Habs) as [-> ->]. split; reflexivity.
  - intros st x u y Hxu Hxy Huy m. subst m. simpl.
    unfold sortingFn_event, sortingFn_value. simpl.
    rewrite !str_eqb_refl.
    destruct (str_eqb_spec x u); [congruence|].
    destruct (str_eqb_spec x y); [congruence|].
    destruct (str_eqb_spec u y); [congruence|].
    repeat split; reflexivity.
Qed.

(** *** sortMetrics *)

Lemma reduceObject_get (m : obj Metric) (sorted : list jsstring)
    (d : obj Metric) (k : jsstring) :
  (forall key, In key sorted -> In key (keys m)) ->
  get (reduceObject m sorted d) k =
  if in_dec (list_eq_dec N.eq_dec) k sorted then get m k else get d k.
Proof.
  revert d; induction sorted as [|key sorted IH]; intros d Hsub;
    [reflexivity|].
  destruct (In_get_Some m key (Hsub key (or_introl eq_refl))) as [v Ev].
  unfold reduceObject in *. simpl fold_left. rewrite Ev.
  rewrite IH by (intros k' Hk'; apply Hsub; now right).
  rewrite get_set, spread_get. simpl.
  destruct (list_eq_dec N.eq_dec key k) as [->|Hne].
  - rewrite str_eqb_refl.
    destruct (in_dec (list_eq_dec N.eq_dec) k sorted); congruence.
  - destruct (str_eqb_spec key k); [congruence|].
    destruct (in_dec (list_eq_dec N.eq_dec) k sorted); reflexivity.
Qed.

Lemma keysAfter_perm (ks sorted : list jsstring) :
  Permutation (keysAfter ks sorted) (ks ++ sorted).
Proof.
  revert ks; induction sorted as [|key sorted IH]; intros ks; simpl.
  - now rewrite app_nil_r.
  - unfold keysAfter in *. simpl. rewrite IH.
    rewrite (propertyOrder_perm ks), <- app_assoc. reflexivity.
Qed.

Lemma reduceObject_keys (m : obj Metric) (sorted : list jsstring)
    (d : obj Metric) :
  (forall key, In key sorted -> In key (keys m)) ->
  NoDup (keys d ++ sorted) ->
  keys (reduceObject m sorted d) = keysAfter (keys d) sorted.
Proof.
  revert d; induction sorted as [|key sorted IH]; intros d Hsub Hnd;
    [reflexivity|].
  destruct (In_get_Some m key (Hsub key (or_introl eq_refl))) as [v Ev].
  assert (Hfresh : ~ In key (keys (spread d))).
  { rewrite spread_keys. intros Hin.
    apply (Permutation_in _ (own_keys_perm d)) in Hin.
    apply NoDup_remove_2 in Hnd. apply Hnd. apply in_or_app. now left. }
  assert (Hkeys : keys (set (spread d) key v) = propertyOrder (keys d) ++ [key]).
  { rewrite (keys_set_fresh _ _ _ Hfresh), spread_keys. reflexivity. }
  unfold reduceObject, keysAfter in *. simpl fold_left. rewrite Ev.
  rewrite IH.
  - now rewrite Hkeys.
  - intros k' Hk'. apply Hsub. now right.
  - rewrite Hkeys.
    apply (Permutation_NoDup (l := keys d ++ key :: sorted)); [|exact Hnd].
    rewrite <- app_assoc. simpl.
    now rewrite (propertyOrder_perm (keys d)).
Qed.

Lemma reduceStep_alloc (m : obj Metric) (h : heap Metric) (r : ref)
    (d : obj Metric) (key : jsstring) (v : Metric) :
  deref h r = Some d ->
  get m key = Some v ->
  reduceStep m (Some (r, h)) key
  = Some (List.length h, h ++ [set (spread d) key v]).
Proof. intros Hd Ev. unfold reduceStep. now rewrite Hd, Ev. Qed.

Lemma deref_alloc (h : heap Metric) (o : obj Metric) :
  deref (h ++ [o]) (List.length h) = Some o.
Proof.
  unfold deref. rewrite nth_error_app2, Nat.sub_diag by lia. reflexivity.
Qed.

(** The [reduce] in the heap: it only allocates, and what it returns is a
    reference to [reduceObject]. *)
Lemma reduce_in_heap (m : obj Metric) (sorted : list jsstring)
    (h : heap Metric) (r : ref) (d : obj Metric) :
  (forall key, In key sorted -> In key (keys m)) ->
  deref h r = Some d ->
  exists r' ext,
    fold_left (reduceStep m) sorted (Some (r, h)) = Some (r', h ++ ext)
    /\ deref (h ++ ext) r' = Some (reduceObject m sorted d)
    /\ (r' = r \/ (List.length h <= r')%nat).
Proof.
  revert h r d; induction sorted as [|key sorted IH]; intros h r d Hsub Hd.
  - exists r, []. simpl. rewrite app_nil_r. auto.
  - destruct (In_get_Some m key (Hsub key (or_introl eq_refl))) as [v Ev].
    change (fold_left (reduceStep m) (key :: sorted) (Some (r, h)))
      with (fold_left (reduceStep m) sorted (reduceStep m (Some (r, h)) key)).
    rewrite (reduceStep_alloc m h r d key v Hd Ev).
    destruct (IH (h ++ [set (spread d) key v]) (List.length h)
                 (set (spread d) key v)) as (r' & ext & Hfold & Hderef & Hr).
    + intros k' Hk'. apply Hsub. now right.
    + apply deref_alloc.
    + exists r', (set (spread d) key v :: ext).
      rewrite <- app_assoc in Hfold, Hderef. simpl app in Hfold, Hderef.
      unfold reduceObject in *. simpl fold_left. rewrite Ev.
      repeat split; auto.
      right. destruct Hr as [->|Hr]; [lia|].
      rewrite length_app in Hr. simpl in Hr. lia.
Qed.

(** What a call of [sortMetrics] does, in full. *)
Lemma sortMetrics_run (s : State) (h : heap Metric) (metrics : ref)
    (m : obj Metric) :
  deref h metrics = Some m ->
  exists sorted r ext,
    array_sort (sortingFn m (sortingDown s) (sorting s)) (own_keys m)
      = Some sorted
    /\ sortMetrics s h metrics = Some (r, h ++ ext)
    /\ (List.length h <= r)%nat
    /\ deref (h ++ ext) r = Some (reduceObject m sorted []).
Proof.
  intros Hm. unfold sortMetrics. rewrite Hm.
  destruct (array_sort (sortingFn m (sortingDown s) (sorting s)) (own_keys m))
    as [sorted|] eqn:Hsort.
  - assert (Hsub : forall key, In key sorted -> In key (keys m)).
    { intros key Hk. apply (Permutation_in _ (own_keys_perm m)).
      apply (Permutation_in _ (Permutation_sym (array_sort_perm _ _ _ _ Hsort))).
      exact Hk. }
    destruct (reduce_in_heap m sorted (h ++ [[]]) (List.length h) [] Hsub)
      as (r & ext & Hfold & Hderef & Hr).
    + apply deref_alloc.
    + exists sorted, r, ([] :: ext). unfold alloc.
      rewrite <- app_assoc in Hfold, Hderef. simpl app in Hfold, Hderef.
      repeat split; auto.
      destruct Hr as [->|Hr]; [lia|].
      rewrite length_app in Hr. simpl in Hr. lia.
  - exfalso. revert Hsort. apply array_sort_returns.
    intros a b Ha Hb. apply sortingFn_defined.
    + apply (Permutation_in _ (own_keys_perm m)). exact Ha.
    + apply (Permutation_in _ (own_keys_perm m)). exact Hb.
Qed.

Lemma deref_extend (h ext : heap Metric) (r : ref) :
  (r < List.length h)%nat -> deref (h ++ ext) r = deref h r.
Proof. intros Hr. unfold deref. now rewrite nth_error_app1. Qed.

Lemma deref_bound (h : heap Metric) (r : ref) (o : obj Metric) :
  deref h r = Some o -> (r < List.length h)%nat.
Proof. intros H. apply nth_error_Some. unfold deref in H. congruence. Qed.

(** The object [sortMetrics] builds has the keys and values of the input. *)
Lemma sorted_object (m : obj Metric) (cmp : jsstring -> jsstring -> option Z)
    (sorted : list jsstring) :
  NoDup (keys m) ->
  array_sort cmp (own_keys m) = Some sorted ->
  keys (reduceObject m sorted []) = keysAfter [] sorted
  /\ Permutation (keys (reduceObject m sorted [])) (keys m)
  /\ NoDup (keys (reduceObject m sorted []))
  /\ forall k, get (reduceObject m sorted []) k = get m k.
Proof.
  intros Hnd Hsort.
  assert (Hperm : Permutation sorted (keys m)).
  { rewrite <- (array_sort_perm _ _ _ _ Hsort). apply own_keys_perm. }
  assert (Hsub : forall key, In key sorted -> In key (keys m)).
  { intros key. apply (Permutation_in _ Hperm). }
  assert (Hnd' : NoDup sorted).
  { apply (Permutation_NoDup (Permutation_sym Hperm) Hnd). }
  assert (Hkeys : keys (reduceObject m sorted []) = keysAfter [] sorted).
  { apply (reduceObject_keys m sorted [] Hsub). exact Hnd'. }
  assert (Hp : Permutation (keys (reduceObject m sorted [])) (keys m)).
  { rewrite Hkeys, keysAfter_perm. exact Hperm. }
  repeat split; auto.
  - apply (Permutation_NoDup (Permutation_sym Hp) Hnd).
  - intros k. rewrite (reduceObject_get m sorted [] k Hsub).
    destruct (in_dec (list_eq_dec N.eq_dec) k sorted) as [_|Hnin];
      [reflexivity|].
    symmetry. apply get_None. intros Hk. apply Hnin.
    apply (Permutation_in _ (Permutation_sym Hperm)). exact Hk.
Qed.

(** C4. A call of [sortMetrics] on the object [m] at [metrics] returns a
    reference that was not in the heap before, so it is not the input's; it
    changes no object of the heap, the input among them; the object returned
    has the keys of [m], each once, with the values of [m]; and every call
    on the same map with the same [sorting] and [sortingDown], in whatever
    heap and state, a second call after this one included, returns an object
    with the same properties in the same order. *)
Theorem sortMetrics_pure (s : State) (h : heap Metric) (metrics : ref)
    (m : obj Metric) :
  deref h metrics = Some m ->
  NoDup (keys m) ->
  exists r1 h1 out,
    sortMetrics s h metrics = Some (r1, h1)
    /\ deref h1 r1 = Some out
    /\ (List.length h <= r1)%nat
    /\ r1 <> metrics
    /\ (forall r, (r < List.length h)%nat -> deref h1 r = deref h r)
    /\ Permutation (keys out) (keys m)
    /\ NoDup (keys out)
    /\ (forall k, get out k = get m k)
    /\ (forall s' h' metrics',
          sorting s' = sorting s ->
          sortingDown s' = sortingDown s ->
          deref h' metrics' = Some m ->
          sortMetricsResult s' h' metrics' = Some out)
    /\ sortMetricsResult s h1 metrics = Some out.
Proof.
  intros Hm Hnd.
  pose proof (deref_bound _ _ _ Hm) as Hlt.
  destruct (sortMetrics_run s h metrics m Hm)
    as (sorted & r1 & ext & Hsort & Hrun & Hfresh & Hout).
  destruct (sorted_object m _ sorted Hnd Hsort) as (_ & Hperm & Hnd' & Hget).
  assert (Hagain : forall s' h' metrics',
             sorting s' = sorting s ->
             sortingDown s' = sortingDown s ->
             deref h' metrics' = Some m ->
             sortMetricsResult s' h' metrics'
             = Some (reduceObject m sorted [])).
  { intros s' h' metrics' Hk Hd Hm'.
    destruct (sortMetrics_run s' h' metrics' m Hm')
      as (sorted' & r2 & ext' & Hsort' & Hrun' & _ & Hout').
    rewrite Hk, Hd in Hsort'.
    assert (sorted' = sorted) by congruence. subst sorted'.
    unfold sortMetricsResult. now rewrite Hrun'. }
  exists r1, (h ++ ext), (reduceObject m sorted []).
  repeat split; auto.
  - lia.
  - intros r Hr. now apply deref_extend.
  - apply Hagain; auto. now rewrite deref_extend.
Qed.

(** C6. The name comparator compares the normalized names, whatever the
    metrics are: names with the same normal form compare as 0, as
    ["Metric-A!"] and ["metric-a"] do, both of normal form ["metric-a"]. The
    object sorted by name has the keys of the input, as they were. *)
Theorem name_comparator_normalizes (metrics : obj Metric)
    (sortingDown : bool) :
  (forall a b,
      sortingFn metrics sortingDown SortName a b
      = Some (if str_lt (normalizeName a) (normalizeName b)
              then (if sortingDown then -1 else 1)
              else if str_gt (normalizeName a) (normalizeName b)
                   then (if sortingDown then 1 else -1)
                   else 0))
  /\ (forall a b,
      normalizeName a = normalizeName b ->
      sortingFn metrics sortingDown SortName a b = Some 0)
  /\ normalizeName (lit "Metric-A!") = lit "metric-a"
  /\ normalizeName (lit "metric-a") = lit "metric-a"
  /\ sortingFn metrics sortingDown SortName (lit "Metric-A!") (lit "metric-a")
     = Some 0
  /\ (forall s h r,
      sorting s = SortName ->
      deref h r = Some metrics ->
      NoDup (keys metrics) ->
      exists out,
        sortMetricsResult s h r = Some out
        /\ forall k, In k (keys out) <-> In k (keys metrics)).
Proof.
  assert (Heq : forall a b, normalizeName a = normalizeName b ->
                            sortingFn metrics sortingDown SortName a b = Some 0).
  { intros a b Hab. simpl. unfold sortingFn_name, str_gt.
    fold (normalizeName a). fold (normalizeName b).
    rewrite Hab. now rewrite str_lt_irrefl. }
  split; [reflexivity|]. split; [exact Heq|].
  split; [reflexivity|]. split; [reflexivity|].
  split; [now apply Heq|].
  intros s h r _ Hm Hnd.
  destruct (sortMetrics_run s h r metrics Hm)
    as (sorted & r1 & ext & Hsort & Hrun & _ & Hout).
  destruct (sorted_object metrics _ sorted Hnd Hsort) as (_ & Hperm & _ & _).
  exists (reduceObject metrics sorted []).
  unfold sortMetricsResult. rewrite Hrun. split; [exact Hout|].
  intros k. split.
  - apply (Permutation_in _ Hperm).
  - apply (Permutation_in _ (Permutation_sym Hperm)).
Qed.


(** ** Further properties of the container *)

(** *** Names under comparison *)

(** The code units that survive [replace]: [a-zA-Z0-9-.]. *)
Definition kept (c : N) : bool := negb (regex c).

(** The alphabet of a normalized name: [a-z0-9-.]. *)
Definition normalAlphabet (c : N) : bool :=
  (N.leb 97 c && N.leb c 122) || (N.leb 48 c && N.leb c 57)
  || N.eqb c 45 || N.eqb c 46.

Lemma kept_below (c : N) : kept c = true -> (c < 123)%N.
Proof.
  unfold kept, regex. rewrite negb_involutive. intros Hkept.
  destruct (N.leb_spec 97 c), (N.leb_spec c 122), (N.leb_spec 65 c),
    (N.leb_spec c 90), (N.leb_spec 48 c), (N.leb_spec c 57),
    (N.eqb_spec c 45), (N.eqb_spec c 46); simpl in Hkept;
    try discriminate; lia.
Qed.

Lemma below_123 (P : N -> bool) :
  forallb P (map N.of_nat (seq 0 123)) = true ->
  forall c, (c < 123)%N -> P c = true.
Proof.
  intros Hall c Hc. rewrite forallb_forall in Hall. apply Hall.
  apply in_map_iff. exists (N.to_nat c). split; [apply N2Nat.id|].
  apply in_seq. lia.
Qed.

Lemma whitespace_not_kept (c : N) : isWhiteSpace c = true -> kept c = false.
Proof.
  intros Hws. destruct (kept c) eqn:Hk; [|reflexivity].
  pose proof (kept_below c Hk) as Hlt.
  assert (H : negb (isWhiteSpace c && kept c) = true).
  { clear Hws Hk. revert c Hlt. apply below_123. vm_compute. reflexivity. }
  rewrite Hws, Hk in H. discriminate.
Qed.

Lemma kept_lower (c : N) :
  kept c = true ->
  normalAlphabet (lower c) = true /\ kept (lower c) = true
  /\ lower (lower c) = lower c.
Proof.
  intros Hk. pose proof (kept_below c Hk) as Hlt.
  assert (H : implb (kept c)
                (normalAlphabet (lower c) && kept (lower c)
                 && N.eqb (lower (lower c)) (lower c)) = true).
  { clear Hk. revert c Hlt. apply below_123. vm_compute. reflexivity. }
  rewrite Hk in H. simpl in H.
  apply andb_prop in H. destruct H as [H H3].
  apply andb_prop in H. destruct H as [H1 H2].
  apply N.eqb_eq in H3. auto.
Qed.

Lemma filter_trimStart (s : jsstring) :
  filter kept (trimStart s) = filter kept s.
Proof.
  induction s as [|c s IH]; simpl; [reflexivity|].
  destruct (isWhiteSpace c) eqn:Hws; [|reflexivity].
  now rewrite (whitespace_not_kept c Hws).
Qed.

Lemma filter_trim (s : jsstring) : filter kept (trim s) = filter kept s.
Proof.
  unfold trim, trimEnd.
  rewrite filter_rev, filter_trimStart, <- filter_rev, rev_involutive.
  apply filter_trimStart.
Qed.

Lemma normalizeName_kept (name : jsstring) :
  normalizeName name = map lower (filter kept name).
Proof.
  unfold normalizeName, toLowerCase, replace_empty.
  change (fun c : N => negb (regex c)) with kept.
  now rewrite filter_trim.
Qed.

Lemma lower_kept_list (l : list N) :
  Forall (fun c => kept c = true) l ->
  Forall (fun c => normalAlphabet c = true) (map lower l)
  /\ filter kept (map lower l) = map lower l
  /\ map lower (map lower l) = map lower l.
Proof.
  induction 1 as [|c l Hc _ IH]; simpl; [auto|].
  destruct (kept_lower c Hc) as (Ha & Hk & Hl).
  destruct IH as (IH1 & IH2 & IH3).
  rewrite Hk, Hl, IH2, IH3. auto.
Qed.

(** X1. [trim] does not change what the name comparator sees: the pattern
    removes every white space code unit anyway, so the normal form of a name
    is the lowercase of its code units in [a-zA-Z0-9-.], and names that
    differ only in code units outside that set compare as equal. *)
Theorem trim_is_redundant (name : jsstring) :
  normalizeName name = toLowerCase (replace_empty regex name)
  /\ (forall other sortingDown,
        filter kept other = filter kept name ->
        sortingFn_name sortingDown name other = Some 0).
Proof.
  split.
  - rewrite normalizeName_kept. reflexivity.
  - intros other sd Hsame. unfold sortingFn_name, str_gt.
    fold (normalizeName name). fold (normalizeName other).
    rewrite !normalizeName_kept, Hsame. now rewrite str_lt_irrefl.
Qed.

(** X2. A normal form is written in [a-z0-9-.] and is its own normal form:
    normalizing twice is normalizing once. *)
Theorem normalizeName_idempotent (name : jsstring) :
  Forall (fun c => normalAlphabet c = true) (normalizeName name)
  /\ normalizeName (normalizeName name) = normalizeName name.
Proof.
  assert (Hk : Forall (fun c => kept c = true) (filter kept name)).
  { apply Forall_forall. intros c Hc. now apply filter_In in Hc. }
  destruct (lower_kept_list _ Hk) as (Ha & Hf & Hl).
  rewrite (normalizeName_kept (normalizeName name)).
  rewrite !normalizeName_kept. rewrite Hf, Hl. auto.
Qed.

(** *** The comparators as orderings *)

(** [A < B] for the keys the comparator of [k] extracts from [a] and [b]. *)
Definition keyLt (k : Sorting) (a : jsstring) (ma : Metric)
    (b : jsstring) (mb : Metric) : bool :=
  match k with
  | SortState => getStatusWeight (state ma) <? getStatusWeight (state mb)
  | SortName => str_lt (normalizeName a) (normalizeName b)
  | SortEvent => opt_lt (event_timestamp ma) (event_timestamp mb)
  | SortValue => num_lt (or_zero (value ma)) (or_zero (value mb))
  end.

(** The body the four comparators share. *)
Definition threeWay (lt gt sortingDown : bool) : Z :=
  if lt then (if sortingDown then -1 else 1)
  else if gt then (if sortingDown then 1 else -1)
  else 0.

(** [a] may stand before [b]: the comparator does not return a positive
    number for them. *)
Definition notAfter (m : obj Metric) (sortingDown : bool) (k : Sorting)
    (a b : jsstring) : Prop :=
  exists v, sortingFn m sortingDown k a b = Some v /\ v <= 0.

Lemma sortingFn_threeWay (m : obj Metric) (sd : bool) (k : Sorting)
    (a b : jsstring) (ma mb : Metric) :
  get m a = Some ma ->
  get m b = Some mb ->
  sortingFn m sd k a b
  = Some (threeWay (keyLt k a ma b mb) (keyLt k b mb a ma) sd).
Proof.
  intros Ea Eb. destruct k; simpl;
    unfold sortingFn_state, sortingFn_name, sortingFn_event, sortingFn_value;
    rewrite ?Ea, ?Eb; [|reflexivity..].
  now rewrite Z.gtb_ltb.
Qed.

Lemma keyLt_asym (k : Sorting) (a b : jsstring) (ma mb : Metric) :
  keyLt k a ma b mb = true -> keyLt k b mb a ma = false.
Proof.
  destruct k; simpl.
  - intros H. apply Z.ltb_lt in H. apply Z.ltb_ge. lia.
  - apply str_lt_asym.
  - apply opt_lt_asym.
  - apply num_lt_asym.
Qed.

Lemma str_lt_negtrans (a b c : jsstring) :
  str_lt a b = false -> str_lt b c = false -> str_lt a c = false.
Proof.
  revert b c; induction a as [|x a IH]; intros [|y b] [|z c]; simpl;
    try congruence.
  destruct (N.ltb_spec x y), (N.ltb_spec y x), (N.ltb_spec y z),
    (N.ltb_spec z y), (N.ltb_spec x z), (N.ltb_spec z x);
    try congruence; try lia.
  apply IH.
Qed.

Lemma num_lt_false (a b : Q) : num_lt a b = false <-> (b <= a)%Q.
Proof.
  unfold num_lt. rewrite Qle_alt, <- (Qcompare_antisym a b).
  destruct (a ?= b)%Q; simpl; split; congruence.
Qed.

Lemma keyLt_negtrans (k : Sorting) (a b c : jsstring) (ma mb mc : Metric) :
  k <> SortEvent ->
  keyLt k a ma b mb = false ->
  keyLt k b mb c mc = false ->
  keyLt k a ma c mc = false.
Proof.
  destruct k; simpl; intros Hk; [| |congruence|].
  - rewrite !Z.ltb_ge. lia.
  - apply str_lt_negtrans.
  - rewrite !num_lt_false. intros H1 H2. now apply Qle_trans with (2 := H1).
Qed.

Lemma threeWay_le (lt gt sd : bool) :
  (lt = true -> gt = false) ->
  threeWay lt gt sd <= 0 <-> (if sd then gt else lt) = false.
Proof.
  intros Hasym. unfold threeWay.
  destruct lt, gt, sd; simpl; try (specialize (Hasym eq_refl));
    split; intros; try congruence; try lia.
Qed.

Lemma notAfter_keyLt (m : obj Metric) (sd : bool) (k : Sorting)
    (a b : jsstring) (ma mb : Metric) :
  get m a = Some ma ->
  get m b = Some mb ->
  notAfter m sd k a b
  <-> (if sd then keyLt k b mb a ma else keyLt k a ma b mb) = false.
Proof.
  intros Ea Eb. unfold notAfter.
  rewrite (sortingFn_threeWay m sd k a b _ _ Ea Eb).
  rewrite <- (threeWay_le _ _ sd (keyLt_asym k a b ma mb)). split.
  - intros (v & Hv & Hle). now injection Hv as <-.
  - intros Hle. eauto.
Qed.

(** X3. Swapping the arguments of a comparator negates its result, and so
    does flipping [sortingDown]: sorting in the other direction compares
    each pair the other way round. A key compares as 0 with itself. This
    holds for all four sort keys. *)
Theorem comparator_antisymmetric (m : obj Metric) (sortingDown : bool)
    (k : Sorting) (a b : jsstring) (ma mb : Metric) :
  get m a = Some ma ->
  get m b = Some mb ->
  sortingFn m sortingDown k b a
    = option_map Z.opp (sortingFn m sortingDown k a b)
  /\ sortingFn m (negb sortingDown) k a b = sortingFn m sortingDown k b a
  /\ sortingFn m sortingDown k a a = Some 0.
Proof.
  intros Ea Eb.
  rewrite (sortingFn_threeWay m sortingDown k a b _ _ Ea Eb),
    (sortingFn_threeWay m sortingDown k b a _ _ Eb Ea),
    (sortingFn_threeWay m (negb sortingDown) k a b _ _ Ea Eb),
    (sortingFn_threeWay m sortingDown k a a _ _ Ea Ea).
  pose proof (keyLt_asym k a b ma mb) as H1.
  pose proof (keyLt_asym k b a mb ma) as H2.
  pose proof (keyLt_asym k a a ma ma) as H3.
  unfold threeWay. simpl.
  destruct (keyLt k a ma b mb), (keyLt k b mb a ma), (keyLt k a ma a ma),
    sortingDown; simpl;
    try (specialize (H1 eq_refl)); try (specialize (H2 eq_refl));
    try (specialize (H3 eq_refl)); try discriminate; auto.
Qed.

Lemma notAfter_connex (m : obj Metric) (sd : bool) (k : Sorting)
    (a b : jsstring) :
  In a (keys m) -> In b (keys m) ->
  notAfter m sd k a b \/ notAfter m sd k b a.
Proof.
  intros Ha Hb.
  destruct (In_get_Some m a Ha) as [ma Ea].
  destruct (In_get_Some m b Hb) as [mb Eb].
  rewrite (notAfter_keyLt m sd k a b _ _ Ea Eb),
    (notAfter_keyLt m sd k b a _ _ Eb Ea).
  pose proof (keyLt_asym k a b ma mb) as H1.
  pose proof (keyLt_asym k b a mb ma) as H2.
  destruct sd, (keyLt k a ma b mb), (keyLt k b mb a ma); auto.
Qed.

Lemma notAfter_trans (m : obj Metric) (sd : bool) (k : Sorting)
    (a b c : jsstring) :
  k <> SortEvent ->
  In a (keys m) -> In b (keys m) -> In c (keys m) ->
  notAfter m sd k a b -> notAfter m sd k b c -> notAfter m sd k a c.
Proof.
  intros Hk Ha Hb Hc.
  destruct (In_get_Some m a Ha) as [ma Ea].
  destruct (In_get_Some m b Hb) as [mb Eb].
  destruct (In_get_Some m c Hc) as [mc Ec].
  rewrite (notAfter_keyLt m sd k a b _ _ Ea Eb),
    (notAfter_keyLt m sd k b c _ _ Eb Ec),
    (notAfter_keyLt m sd k a c _ _ Ea Ec).
  destruct sd; intros H1 H2.
  - exact (keyLt_negtrans k c b a mc mb ma Hk H2 H1).
  - exact (keyLt_negtrans k a b c ma mb mc Hk H1 H2).
Qed.

(** X4. The state, name and value comparators are consistent comparison
    functions on the keys of the map: of two keys one may stand before the
    other, and "may stand before" is transitive. For the value comparator
    with [sortingDown] true, a key may stand before another exactly when its
    value, absent read as 0, is less than or equal: that direction is
    ascending. *)
Theorem comparators_consistent (m : obj Metric) (sortingDown : bool)
    (k : Sorting) (a b c : jsstring) (ma mb mc : Metric) :
  k <> SortEvent ->
  get m a = Some ma ->
  get m b = Some mb ->
  get m c = Some mc ->
  (notAfter m sortingDown k a b \/ notAfter m sortingDown k b a)
  /\ (notAfter m sortingDown k a b -> notAfter m sortingDown k b c ->
      notAfter m sortingDown k a c)
  /\ (notAfter m true SortValue a b
      <-> (or_zero (value ma) <= or_zero (value mb))%Q)
  /\ (notAfter m false SortValue a b
      <-> (or_zero (value mb) <= or_zero (value ma))%Q).
Proof.
  intros Hk Ea Eb Ec.
  pose proof (get_Some_In _ _ _ Ea) as Ha.
  pose proof (get_Some_In _ _ _ Eb) as Hb.
  pose proof (get_Some_In _ _ _ Ec) as Hc.
  split; [|split; [|split]].
  - now apply notAfter_connex.
  - now apply notAfter_trans.
  - rewrite (notAfter_keyLt m true SortValue a b _ _ Ea Eb). simpl.
    apply num_lt_false.
  - rewrite (notAfter_keyLt m false SortValue a b _ _ Ea Eb). simpl.
    apply num_lt_false.
Qed.

(** *** The order of the sorted object *)

Definition nonIndex (k : jsstring) : bool := negb (isArrayIndex k).

(** [a] may stand before [b] for a comparator. *)
Definition before {A : Type} (cmp : A -> A -> option Z) (a b : A) : Prop :=
  exists v, cmp a b = Some v /\ v <= 0.

(** The three outcomes of a comparator for a pair, [a <CF b], [a =CF b]
    and [a >CF b] in ECMAScript's notation. *)
Definition ltCF {A : Type} (cmp : A -> A -> option Z) (a b : A) : Prop :=
  exists v, cmp a b = Some v /\ v < 0.

Definition eqCF {A : Type} (cmp : A -> A -> option Z) (a b : A) : Prop :=
  cmp a b = Some 0.

Definition gtCF {A : Type} (cmp : A -> A -> option Z) (a b : A) : Prop :=
  exists v, cmp a b = Some v /\ 0 < v.

(** A consistent comparison function for the elements of [l], as ECMAScript
    defines it for [Array.prototype.sort]: it returns a number for every
    pair, [=CF] is reflexive, symmetric and transitive, and [<CF] and [>CF]
    are transitive. *)
Definition consistentOn {A : Type} (cmp : A -> A -> option Z) (l : list A)
  : Prop :=
  (forall a b, In a l -> In b l -> exists v, cmp a b = Some v)
  /\ (forall a, In a l -> eqCF cmp a a)
  /\ (forall a b, In a l -> In b l -> eqCF cmp a b -> eqCF cmp b a)
  /\ (forall a b c, In a l -> In b l -> In c l ->
                    eqCF cmp a b -> eqCF cmp b c -> eqCF cmp a c)
  /\ (forall a b c, In a l -> In b l -> In c l ->
                    ltCF cmp a b -> ltCF cmp b c -> ltCF cmp a c)
  /\ (forall a b c, In a l -> In b l -> In c l ->
                    gtCF cmp a b -> gtCF cmp b c -> gtCF cmp a c).

(** An engine that sorts: given a comparison function that is consistent for
    the elements of the array, no element of the result is [<CF] an element
    that stands before it. ECMAScript asks this of every
    [Array.prototype.sort], whichever of the two elements the engine passes
    first; for a function that is not consistent it leaves the order to the
    engine. *)
Definition sortsConsistent (E : ArraySort) : Prop :=
  forall (A : Type) (cmp : A -> A -> option Z) (l l' : list A),
    consistentOn cmp l ->
    @array_sort E A cmp l = Some l' ->
    StronglySorted (fun x y => ~ ltCF cmp y x) l'.

Section ConsistentComparators.

Context {A : Type} (cmp : A -> A -> option Z) (l : list A).
Hypothesis consistent : consistentOn cmp l.

Lemma cf_lt_gt (a b : A) :
  In a l -> In b l -> ltCF cmp a b -> gtCF cmp b a.
Proof.
  destruct consistent as (Hnum & Hrefl & Hsym & _ & Hlt & _).
  intros Ha Hb (v & Hv & Hv0). destruct (Hnum b a Hb Ha) as [w Hw].
  destruct (Z.lt_trichotomy w 0) as [Hw0|[Hw0|Hw0]].
  - destruct (Hlt a b a Ha Hb Ha) as (u & Hu & Hu0);
      [exists v; auto|exists w; auto|].
    pose proof (Hrefl a Ha) as Haa. unfold eqCF in Haa. rewrite Haa in Hu.
    injection Hu as <-. lia.
  - subst w. pose proof (Hsym b a Hb Ha Hw) as Hab. unfold eqCF in Hab.
    rewrite Hab in Hv. injection Hv as <-. lia.
  - exists w. auto.
Qed.

Lemma cf_gt_lt (a b : A) :
  In a l -> In b l -> gtCF cmp a b -> ltCF cmp b a.
Proof.
  destruct consistent as (Hnum & Hrefl & Hsym & _ & _ & Hgt).
  intros Ha Hb (v & Hv & Hv0). destruct (Hnum b a Hb Ha) as [w Hw].
  destruct (Z.lt_trichotomy w 0) as [Hw0|[Hw0|Hw0]].
  - exists w. auto.
  - subst w. pose proof (Hsym b a Hb Ha Hw) as Hab. unfold eqCF in Hab.
    rewrite Hab in Hv. injection Hv as <-. lia.
  - destruct (Hgt a b a Ha Hb Ha) as (u & Hu & Hu0);
      [exists v; auto|exists w; auto|].
    pose proof (Hrefl a Ha) as Haa. unfold eqCF in Haa. rewrite Haa in Hu.
    injection Hu as <-. lia.
Qed.

Lemma cf_not_lt_before (x y : A) :
  In x l -> In y l -> ~ ltCF cmp y x -> before cmp x y.
Proof.
  intros Hx Hy Hnot.
  destruct consistent as (Hnum & _). destruct (Hnum x y Hx Hy) as [v Hv].
  destruct (Z_le_gt_dec v 0) as [Hle|Hgt]; [exists v; auto|].
  exfalso. apply Hnot. apply cf_gt_lt; auto. exists v. split; [auto|lia].
Qed.

Lemma cf_before_not_lt (x y : A) :
  In x l -> In y l -> before cmp x y -> ~ ltCF cmp y x.
Proof.
  intros Hx Hy (v & Hv & Hv0) Hlt.
  destruct (cf_lt_gt y x Hy Hx Hlt) as (w & Hw & Hw0).
  rewrite Hv in Hw. injection Hw as <-. lia.
Qed.

Lemma cf_before_connex (a b : A) :
  In a l -> In b l -> before cmp a b \/ before cmp b a.
Proof.
  intros Ha Hb.
  destruct consistent as (Hnum & _). destruct (Hnum a b Ha Hb) as [v Hv].
  destruct (Z_le_gt_dec v 0) as [Hle|Hgt]; [left; exists v; auto|].
  right. destruct (cf_gt_lt a b Ha Hb) as (w & Hw & Hw0).
  - exists v. split; [auto|lia].
  - exists w. split; [auto|lia].
Qed.

Lemma cf_before_trans (a b c : A) :
  In a l -> In b l -> In c l ->
  before cmp a b -> before cmp b c -> before cmp a c.
Proof.
  intros Ha Hb Hc (v1 & Hv1 & Hle1) (v2 & Hv2 & Hle2).
  apply cf_not_lt_before; auto. intros Hca.
  destruct consistent as (Hnum & Hrefl & Hsym & Heq & Hlt & _).
  assert (Hirr : forall x, In x l -> ~ ltCF cmp x x).
  { intros x Hx (u & Hu & Hu0). pose proof (Hrefl x Hx) as Hxx.
    unfold eqCF in Hxx. rewrite Hxx in Hu. injection Hu as <-. lia. }
  assert (Hne : forall x y, In x l -> In y l ->
                            eqCF cmp x y -> ~ ltCF cmp y x).
  { intros x y Hx Hy Hxy (u & Hu & Hu0).
    pose proof (Hsym x y Hx Hy Hxy) as Hyx. unfold eqCF in Hyx.
    rewrite Hyx in Hu. injection Hu as <-. lia. }
  destruct (Z.eq_dec v1 0) as [->|Hn1]; destruct (Z.eq_dec v2 0) as [->|Hn2].
  - apply (Hne a c Ha Hc); [|exact Hca]. now apply (Heq a b c).
  - apply (Hne a b Ha Hb Hv1). apply (Hlt b c a); auto.
    exists v2. split; [auto|lia].
  - apply (Hne b c Hb Hc Hv2). apply (Hlt c a b); auto.
    exists v1. split; [auto|lia].
  - apply (Hirr a Ha). apply (Hlt a c a); auto.
    apply (Hlt a b c); auto; [exists v1|exists v2]; split; auto; lia.
Qed.

End ConsistentComparators.

(** A comparator whose result changes sign when its arguments are swapped,
    and for which "may stand before" is transitive, is consistent. *)
Lemma consistent_of_antisym {A : Type} (cmp : A -> A -> option Z)
    (l : list A) :
  (forall a b, In a l -> In b l ->
               exists v, cmp a b = Some v /\ cmp b a = Some (- v)) ->
  (forall a b c, In a l -> In b l -> In c l ->
                 before cmp a b -> before cmp b c -> before cmp a c) ->
  consistentOn cmp l.
Proof.
  intros Hanti Htrans.
  assert (Hlt : forall a b c, In a l -> In b l -> In c l ->
                  ltCF cmp a b -> ltCF cmp b c -> ltCF cmp a c).
  { intros a b c Ha Hb Hc (v1 & Hv1 & H1) (v2 & Hv2 & H2).
    destruct (Htrans a b c Ha Hb Hc) as (v & Hv & Hle);
      [exists v1; split; [auto|lia]|exists v2; split; [auto|lia]|].
    exists v. split; [exact Hv|].
    destruct (Z.eq_dec v 0) as [->|Hne]; [|lia]. exfalso.
    destruct (Hanti a c Ha Hc) as (v' & Hv' & Hca).
    rewrite Hv in Hv'. injection Hv' as <-. simpl in Hca.
    destruct (Htrans c a b Hc Ha Hb) as (w & Hw & Hw0);
      [exists 0; auto with zarith|exists v1; split; [auto|lia]|].
    destruct (Hanti b c Hb Hc) as (v2' & Hv2' & Hcb).
    rewrite Hv2 in Hv2'. injection Hv2' as <-.
    rewrite Hcb in Hw. injection Hw as <-. lia. }
  repeat split.
  - intros a b Ha Hb. destruct (Hanti a b Ha Hb) as (v & Hv & _). eauto.
  - intros a Ha. destruct (Hanti a a Ha Ha) as (v & Hv & Hv').
    unfold eqCF. rewrite Hv in Hv'. injection Hv' as Hv'.
    rewrite Hv. f_equal. lia.
  - intros a b Ha Hb Hab. destruct (Hanti a b Ha Hb) as (v & Hv & Hv').
    unfold eqCF in *. rewrite Hab in Hv. injection Hv as <-. exact Hv'.
  - intros a b c Ha Hb Hc Hab Hbc. unfold eqCF in *.
    destruct (Htrans a b c Ha Hb Hc) as (v & Hv & Hle);
      [exists 0; auto with zarith..|].
    destruct (Hanti a b Ha Hb) as (v1 & Hv1 & Hba).
    rewrite Hab in Hv1. injection Hv1 as <-.
    destruct (Hanti b c Hb Hc) as (v2 & Hv2 & Hcb).
    rewrite Hbc in Hv2. injection Hv2 as <-.
    destruct (Htrans c b a Hc Hb Ha) as (w & Hw & Hw0);
      [exists 0; auto with zarith..|].
    destruct (Hanti a c Ha Hc) as (v' & Hv' & Hca).
    rewrite Hv in Hv'. injection Hv' as <-.
    rewrite Hca in Hw. injection Hw as <-.
    rewrite Hv. f_equal. lia.
  - exact Hlt.
  - intros a b c Ha Hb Hc (v1 & Hv1 & H1) (v2 & Hv2 & H2).
    destruct (Hanti a b Ha Hb) as (v1' & Hv1' & Hba).
    rewrite Hv1 in Hv1'. injection Hv1' as <-.
    destruct (Hanti b c Hb Hc) as (v2' & Hv2' & Hcb).
    rewrite Hv2 in Hv2'. injection Hv2' as <-.
    destruct (Hlt c b a Hc Hb Ha) as (w & Hw & Hw0);
      [exists (- v2); split; [auto|lia]|exists (- v1); split; [auto|lia]|].
    destruct (Hanti c a Hc Ha) as (w' & Hw' & Hac).
    rewrite Hw in Hw'. injection Hw' as <-.
    exists (- w). split; [exact Hac|lia].
Qed.

Lemma StronglySorted_weaken {A : Type} (R R' : A -> A -> Prop)
    (l : list A) :
  (forall x y, In x l -> In y l -> R x y -> R' x y) ->
  StronglySorted R l -> StronglySorted R' l.
Proof.
  intros Himp Hs. induction Hs as [|x l Hs IH Hx]; [constructor|].
  constructor.
  - apply IH. intros a b Ha Hb. apply Himp; now right.
  - rewrite Forall_forall in *. intros y Hy.
    apply Himp; [now left|now right|now apply Hx].
Qed.

Lemma filter_none {A} (p : A -> bool) (l : list A) :
  (forall x, In x l -> p x = false) -> filter p l = [].
Proof.
  induction l as [|x l IH]; simpl; intros H; [reflexivity|].
  rewrite (H x (or_introl eq_refl)). apply IH. intros y Hy. apply H. now right.
Qed.

Lemma filter_twice {A} (p : A -> bool) (l : list A) :
  filter p (filter p l) = filter p l.
Proof.
  induction l as [|x l IH]; simpl; [reflexivity|].
  destruct (p x) eqn:E; simpl; rewrite ?E, IH; reflexivity.
Qed.

Lemma indexPart_indices (ks : list jsstring) (k : jsstring) :
  In k (map snd (sortIndices (indexKeys ks))) -> isArrayIndex k = true.
Proof.
  intros Hk.
  apply (Permutation_in _
           (Permutation_map snd (sortIndices_perm (indexKeys ks)))) in Hk.
  rewrite indexKeys_filter in Hk. now apply filter_In in Hk.
Qed.

Lemma nonIndex_propertyOrder (ks : list jsstring) :
  filter nonIndex (propertyOrder ks) = filter nonIndex ks.
Proof.
  unfold propertyOrder. rewrite filter_app.
  change (fun k : jsstring => negb (isArrayIndex k)) with nonIndex.
  rewrite filter_twice, filter_none; [reflexivity|].
  intros k Hk. unfold nonIndex. now rewrite (indexPart_indices ks k Hk).
Qed.

Lemma nonIndex_keysAfter (ks sorted : list jsstring) :
  filter nonIndex (keysAfter ks sorted)
  = filter nonIndex ks ++ filter nonIndex sorted.
Proof.
  revert ks; induction sorted as [|key sorted IH]; intros ks.
  - simpl. now rewrite app_nil_r.
  - unfold keysAfter in *. simpl fold_left. rewrite IH.
    rewrite filter_app, nonIndex_propertyOrder, <- app_assoc.
    f_equal. simpl. now destruct (nonIndex key).
Qed.

Lemma insertIndex_sorted (x : N * jsstring) (l : list (N * jsstring)) :
  StronglySorted (fun p q => (fst p <= fst q)%N) l ->
  StronglySorted (fun p q => (fst p <= fst q)%N) (insertIndex x l).
Proof.
  induction 1 as [|y l Hs IH Hy]; simpl.
  - constructor; constructor.
  - destruct (N.leb_spec (fst x) (fst y)) as [Hle|Hgt].
    + constructor; [now constructor|]. constructor; [exact Hle|].
      apply Forall_forall. intros z Hz.
      rewrite Forall_forall in Hy. specialize (Hy z Hz). simpl in *. lia.
    + constructor; [exact IH|].
      apply Forall_forall. intros z Hz.
      apply (Permutation_in _ (insertIndex_perm x l)) in Hz.
      destruct Hz as [<-|Hz]; [lia|].
      rewrite Forall_forall in Hy. now apply Hy.
Qed.

Lemma sortIndices_sorted (l : list (N * jsstring)) :
  StronglySorted (fun p q => (fst p <= fst q)%N) (sortIndices l).
Proof.
  induction l as [|x l IH]; simpl; [constructor|].
  now apply insertIndex_sorted.
Qed.

Lemma indexKeys_arrayIndex (ks : list jsstring) (p : N * jsstring) :
  In p (indexKeys ks) -> arrayIndex (snd p) = Some (fst p).
Proof.
  unfold indexKeys. rewrite in_flat_map. intros (k & _ & Hp).
  destruct (arrayIndex k) as [i|] eqn:E; [|contradiction].
  destruct Hp as [<-|[]]. exact E.
Qed.

Lemma StronglySorted_filter {A} (R : A -> A -> Prop) (p : A -> bool)
    (l : list A) :
  StronglySorted R l -> StronglySorted R (filter p l).
Proof.
  induction 1 as [|x l Hs IH Hx]; simpl; [constructor|].
  destruct (p x); [|exact IH]. constructor; [exact IH|].
  apply Forall_forall. intros y Hy. apply filter_In in Hy.
  rewrite Forall_forall in Hx. now apply Hx.
Qed.

(** X5. The keys of the object [sortMetrics] returns, as [Object.keys] lists
    them: first the keys that are array indices, in ascending numeric
    order whatever the sort; then the other keys, in the order the engine's
    sort left them. When no key is an array index the object is in sorted
    order; an empty map gives an empty object. *)
Theorem sortMetrics_key_order (s : State) (h : heap Metric) (metrics : ref)
    (m : obj Metric) :
  deref h metrics = Some m ->
  NoDup (keys m) ->
  exists sorted out indices,
    array_sort (sortingFn m (sortingDown s) (sorting s)) (own_keys m)
      = Some sorted
    /\ sortMetricsResult s h metrics = Some out
    /\ own_keys out = map snd indices ++ filter nonIndex sorted
    /\ StronglySorted N.le (map fst indices)
    /\ (forall p, In p indices -> arrayIndex (snd p) = Some (fst p))
    /\ ((forall k, In k (keys m) -> isArrayIndex k = false) ->
        own_keys out = sorted /\ keys out = sorted)
    /\ (m = [] -> out = []).
Proof.
  intros Hm Hnd.
  destruct (sortMetrics_run s h metrics m Hm)
    as (sorted & r1 & ext & Hsort & Hrun & _ & Hout).
  destruct (sorted_object m _ sorted Hnd Hsort) as (Hkeys & Hperm & _ & _).
  assert (Hps : Permutation sorted (keys m)).
  { rewrite <- (array_sort_perm _ _ _ _ Hsort). apply own_keys_perm. }
  exists sorted, (reduceObject m sorted []),
    (sortIndices (indexKeys (keys (reduceObject m sorted [])))).
  split; [exact Hsort|].
  split; [unfold sortMetricsResult; now rewrite Hrun|].
  assert (Hown : own_keys (reduceObject m sorted [])
                 = map snd (sortIndices
                              (indexKeys (keys (reduceObject m sorted []))))
                   ++ filter nonIndex sorted).
  { unfold own_keys, propertyOrder.
    change (fun k : jsstring => negb (isArrayIndex k)) with nonIndex.
    f_equal. rewrite Hkeys. now rewrite nonIndex_keysAfter. }
  split; [exact Hown|].
  split.
  { generalize (sortIndices_sorted
                  (indexKeys (keys (reduceObject m sorted [])))).
    generalize (sortIndices (indexKeys (keys (reduceObject m sorted [])))).
    induction 1 as [|p l Hs IH Hp]; simpl; constructor; [exact IH|].
    apply Forall_forall. intros i Hi. apply in_map_iff in Hi.
    destruct Hi as (q & <- & Hq). rewrite Forall_forall in Hp.
    now apply Hp. }
  split.
  { intros p Hp. apply (Permutation_in _ (sortIndices_perm _)) in Hp.
    now apply indexKeys_arrayIndex in Hp. }
  split.
  - intros Hnone.
    assert (Hall : forall l, (forall k, In k l -> isArrayIndex k = false) ->
                             filter nonIndex l = l /\ indexKeys l = []).
    { induction l as [|k l IH]; simpl; intros Hl; [auto|].
      destruct (IH (fun k' Hk' => Hl k' (or_intror Hk'))) as [IH1 IH2].
      pose proof (Hl k (or_introl eq_refl)) as Hk.
      unfold nonIndex at 1. rewrite Hk. simpl. rewrite IH1.
      unfold isArrayIndex in Hk. destruct (arrayIndex k); [discriminate|].
      simpl. auto. }
    assert (Hsorted : forall k, In k sorted -> isArrayIndex k = false).
    { intros k Hk. apply Hnone. now apply (Permutation_in _ Hps). }
    assert (Hkout : forall k, In k (keys (reduceObject m sorted [])) ->
                              isArrayIndex k = false).
    { intros k Hk. apply Hnone. now apply (Permutation_in _ Hperm). }
    destruct (Hall _ Hsorted) as [Hf _].
    destruct (Hall _ Hkout) as [Hf' Hi'].
    rewrite Hown, Hi', Hf. simpl. split; [reflexivity|].
    rewrite <- Hf'. rewrite Hkeys at 1.
    rewrite nonIndex_keysAfter. simpl. exact Hf.
  - intros ->. apply Permutation_sym, Permutation_nil in Hps.
    subst sorted. reflexivity.
Qed.

Lemma threeWay_swap (lt gt sd : bool) :
  (lt = true -> gt = false) ->
  threeWay gt lt sd = - threeWay lt gt sd.
Proof.
  intros Hasym. unfold threeWay.
  destruct lt, gt, sd; try reflexivity; specialize (Hasym eq_refl);
    discriminate.
Qed.

Lemma sortingFn_swap (m : obj Metric) (sd : bool) (k : Sorting)
    (a b : jsstring) :
  In a (keys m) -> In b (keys m) ->
  exists v, sortingFn m sd k a b = Some v
            /\ sortingFn m sd k b a = Some (- v).
Proof.
  intros Ha Hb.
  destruct (In_get_Some m a Ha) as [ma Ea].
  destruct (In_get_Some m b Hb) as [mb Eb].
  rewrite (sortingFn_threeWay m sd k a b _ _ Ea Eb),
    (sortingFn_threeWay m sd k b a _ _ Eb Ea).
  eexists. split; [reflexivity|]. f_equal.
  apply threeWay_swap. apply keyLt_asym.
Qed.

(** The state, name and value comparators are consistent comparison
    functions for the keys of the map. *)
Lemma sortingFn_consistent (m : obj Metric) (sd : bool) (k : Sorting) :
  k <> SortEvent -> consistentOn (sortingFn m sd k) (own_keys m).
Proof.
  intros Hk.
  assert (Hin : forall key, In key (own_keys m) -> In key (keys m)).
  { intros key. apply (Permutation_in _ (own_keys_perm m)). }
  apply consistent_of_antisym.
  - intros a b Ha Hb. apply sortingFn_swap; auto.
  - intros a b c Ha Hb Hc. apply (notAfter_trans m sd k a b c); auto.
Qed.

(** X6. With an engine that sorts, and the state, name or value comparator,
    the keys of the returned object that are not array indices are in the
    comparator's order: each may stand before all that follow it. *)
Theorem sortMetrics_ordered (s : State) (h : heap Metric) (metrics : ref)
    (m : obj Metric) :
  sortsConsistent engine ->
  sorting s <> SortEvent ->
  deref h metrics = Some m ->
  NoDup (keys m) ->
  exists out,
    sortMetricsResult s h metrics = Some out
    /\ StronglySorted (notAfter m (sortingDown s) (sorting s))
         (filter nonIndex (own_keys out)).
Proof.
  intros Hengine Hk Hm Hnd.
  destruct (sortMetrics_run s h metrics m Hm)
    as (sorted & r1 & ext & Hsort & Hrun & _ & Hout).
  destruct (sorted_object m _ sorted Hnd Hsort) as (Hkeys & _).
  exists (reduceObject m sorted []).
  split; [unfold sortMetricsResult; now rewrite Hrun|].
  unfold own_keys. rewrite nonIndex_propertyOrder, Hkeys, nonIndex_keysAfter.
  simpl. apply StronglySorted_filter.
  pose proof (sortingFn_consistent m (sortingDown s) (sorting s) Hk) as Hcons.
  pose proof (Hengine _ _ _ _ Hcons Hsort) as Hsorted.
  assert (Hin : forall key, In key sorted -> In key (own_keys m)).
  { intros key. apply (Permutation_in _
                         (Permutation_sym (array_sort_perm _ _ _ _ Hsort))). }
  apply (StronglySorted_weaken _ _ _ (fun x y Hx Hy Hxy =>
           cf_not_lt_before _ _ Hcons x y (Hin x Hx) (Hin y Hy) Hxy)).
  exact Hsorted.
Qed.

(** *** The life of a component *)

Definition componentDidMount (props : Props) : Async unit := getData props.

(** What happens to a mounted component: React mounts it, or the user acts
    on what [render] shows. [props] are the props at that moment, with the
    API as it answers then. *)
Inductive Action :=
| Mounted (props : Props)
| ThrottlingRemoved (props : Props) (triggerId : jsstring)
| MaintenanceSet (now : Z) (props : Props) (triggerId : jsstring)
    (maintenance : Maintenance) (metric : jsstring)
| MetricRemoved (props : Props) (triggerId metric : jsstring)
| SortSelected (newSorting : Sorting).

Definition perform (a : Action) : Async unit :=
  match a with
  | Mounted props => componentDidMount props
  | ThrottlingRemoved props triggerId => disableTrhrottling props triggerId
  | MaintenanceSet now props triggerId maintenance metric =>
      setMaintenance now props triggerId maintenance metric
  | MetricRemoved props triggerId metric =>
      removeMetric props triggerId metric
  | SortSelected newSorting => fun s => onSort s newSorting s
  end.

(** The write call of a mutation, with the props it runs under and the
    answer of the API. *)
Definition writeOf (a : Action) : option (Props * ApiCall * Response unit) :=
  match a with
  | Mounted _ | SortSelected _ => None
  | ThrottlingRemoved props triggerId =>
      Some (props, CallDelThrottling triggerId,
            api_delThrottling (moiraApi props) triggerId)
  | MaintenanceSet now props triggerId maintenance metric =>
      let data :=
        [(metric, effectiveTimestamp now (getMaintenanceTime maintenance))] in
      Some (props, CallSetMaintenance triggerId data,
            api_setMaintenance (moiraApi props) triggerId data)
  | MetricRemoved props triggerId metric =>
      Some (props, CallDelMetric triggerId metric,
            api_delMetric (moiraApi props) triggerId metric)
  end.

(** The two patches of [onSort]. *)
Definition flipPatch (down : bool) : Patch := {|
  p_loading := None; p_error := None; p_trigger := None;
  p_triggerState := None; p_triggerEvents := None;
  p_sorting := None; p_sortingDown := Some (negb down)
|}.

Definition adoptPatch (newSorting : Sorting) : Patch := {|
  p_loading := None; p_error := None; p_trigger := None;
  p_triggerState := None; p_triggerEvents := None;
  p_sorting := Some newSorting; p_sortingDown := Some true
|}.

(** The patches of a trace, in order. *)
Definition patchesOf (t : list Effect) : list Patch :=
  flat_map (fun e => match e with SetState p => [p] | Call _ => [] end) t.

(** The API calls of a trace, in order. *)
Definition callsOf (t : list Effect) : list ApiCall :=
  flat_map (fun e => match e with SetState _ => [] | Call c => [c] end) t.

(** A patch that some method of the container passes to [setState], in
    some state. *)
Definition issued (p : Patch) : Prop :=
  exists (a : Action) (s : State), In (SetState p) (trace (perform a s)).

(** The three data fields are all empty or all set. *)
Definition allOrNothing (s : State) : Prop :=
  (trigger s = None /\ triggerState s = None /\ triggerEvents s = None)
  \/ (trigger s <> None /\ triggerState s <> None /\ triggerEvents s <> None).

Definition stateInvariant (s : State) : Prop :=
  allOrNothing s
  /\ (loading s = false -> trigger s <> None)
  /\ (error s = None \/ error s = Some networkError).

(** The patches of the fetch cycle and of the mutations, and those of the
    sort column. *)
Definition dataPatch (p : Patch) : Prop :=
  p = loadingTrue \/ p = errorPatch
  \/ exists t ts te, p = snapshotPatch t ts te.

Definition sortPatch (p : Patch) : Prop :=
  (exists down, p = flipPatch down) \/ (exists k, p = adoptPatch k).

Lemma getData_cases (props : Props) (s : State) :
  getData props s = ret tt s
  \/ (exists reads,
        getData props s
        = {| completion := Fulfilled tt; final := merge s errorPatch;
             trace := map Call reads ++ [SetState errorPatch] |})
  \/ (exists reads t ts te,
        getData props s
        = {| completion := Fulfilled tt;
             final := merge s (snapshotPatch t ts te);
             trace := map Call reads ++ [SetState (snapshotPatch t ts te)] |}).
Proof.
  destruct (params_id props) as [id|] eqn:Hid.
  - right. rewrite (getData_run props id s Hid).
    destruct (api_getTrigger (moiraApi props) id) as [t|];
      [destruct (api_getTriggerState (moiraApi props) id) as [ts|];
       [destruct (api_getTriggerEvents (moiraApi props) id) as [te|]|]|].
    + right. exists [CallGetTrigger id; CallGetTriggerState id;
                     CallGetTriggerEvents id], t, ts, te. reflexivity.
    + left. exists [CallGetTrigger id; CallGetTriggerState id;
                    CallGetTriggerEvents id]. reflexivity.
    + left. exists [CallGetTrigger id; CallGetTriggerState id]. reflexivity.
    + left. exists [CallGetTrigger id]. reflexivity.
  - left. unfold getData. now rewrite Hid.
Qed.

Lemma patchesOf_app (t t' : list Effect) :
  patchesOf (t ++ t') = patchesOf t ++ patchesOf t'.
Proof. apply flat_map_app. Qed.

Lemma patchesOf_calls (cs : list ApiCall) : patchesOf (map Call cs) = [].
Proof. induction cs; simpl; auto. Qed.

(** A run of [getData]: its final state is the initial one with its patches
    merged, and its patches are data patches. *)
Lemma getData_patches (props : Props) (s : State) :
  final (getData props s)
  = fold_left merge (patchesOf (trace (getData props s))) s
  /\ Forall dataPatch (patchesOf (trace (getData props s)))
  /\ ~ In loadingTrue (patchesOf (trace (getData props s))).
Proof.
  destruct (getData_cases props s)
    as [->|[(reads & ->)|(reads & t & ts & te & ->)]]; simpl.
  - repeat split; auto.
  - rewrite patchesOf_app, patchesOf_calls. simpl.
    split; [reflexivity|].
    split; [constructor; [unfold dataPatch; auto|constructor]|].
    intros [H|[]]. discriminate.
  - rewrite patchesOf_app, patchesOf_calls. simpl.
    split; [reflexivity|].
    split; [constructor; [unfold dataPatch; eauto 6|constructor]|].
    intros [H|[]]. discriminate.
Qed.

(** The body the three mutations share. *)
Definition mutationBody (props : Props) (write : ApiCall)
    (response : Response unit) : Async unit :=
  setState loadingTrue ;; await write response ;; getData props.

Lemma perform_mutation (a : Action) (props : Props) (write : ApiCall)
    (response : Response unit) :
  writeOf a = Some (props, write, response) ->
  perform a = mutationBody props write response.
Proof.
  destruct a; simpl; intros H; try discriminate;
    injection H as <- <- <-; reflexivity.
Qed.

Lemma mutationBody_run (props : Props) (write : ApiCall)
    (response : Response unit) (s : State) :
  mutationBody props write response s
  = match response with
    | Resolves _ =>
        {| completion := completion (getData props (merge s loadingTrue));
           final := final (getData props (merge s loadingTrue));
           trace := SetState loadingTrue :: Call write
                    :: trace (getData props (merge s loadingTrue)) |}
    | Rejects =>
        {| completion := Threw; final := merge s loadingTrue;
           trace := [SetState loadingTrue; Call write] |}
    end.
Proof.
  unfold mutationBody, bind, setState, await. simpl.
  destruct response as [[]|]; reflexivity.
Qed.

(** Every run of an action: the final state is the initial one with the
    patches merged in order; a sort selection issues sort patches, every
    other action data patches. *)
Lemma perform_patches (a : Action) (s : State) :
  final (perform a s) = fold_left merge (patchesOf (trace (perform a s))) s
  /\ Forall (match a with SortSelected _ => sortPatch | _ => dataPatch end)
            (patchesOf (trace (perform a s))).
Proof.
  destruct (writeOf a) as [[[props write] response]|] eqn:Hw.
  - rewrite (perform_mutation a props write response Hw).
    rewrite mutationBody_run.
    destruct (getData_patches props (merge s loadingTrue)) as (Hf & Hp & _).
    assert (Hkind : (match a with SortSelected _ => sortPatch | _ => dataPatch
                     end) = dataPatch)
      by (destruct a; try reflexivity; discriminate).
    rewrite Hkind. destruct response as [[]|]; simpl.
    + split; [exact Hf|]. constructor; [unfold dataPatch; auto|exact Hp].
    + split; [reflexivity|].
      constructor; [unfold dataPatch; auto|constructor].
  - destruct a; try discriminate; simpl.
    + destruct (getData_patches props s) as (Hf & Hp & _). auto.
    + unfold onSort. destruct (Sorting_eqb newSorting (sorting s)); simpl;
        (split; [reflexivity|]); (constructor; [|constructor]);
        unfold sortPatch.
      * left. now exists (sortingDown s).
      * right. now exists newSorting.
Qed.

Lemma issued_kind (p : Patch) : issued p -> dataPatch p \/ sortPatch p.
Proof.
  intros (a & s & Hin).
  destruct (perform_patches a s) as [_ Hall]. rewrite Forall_forall in Hall.
  assert (Hp : In p (patchesOf (trace (perform a s)))).
  { unfold patchesOf. apply in_flat_map. exists (SetState p). simpl. auto. }
  specialize (Hall p Hp). destruct a; auto.
Qed.

Lemma stateInvariant_merge (s : State) (p : Patch) :
  stateInvariant s -> dataPatch p \/ sortPatch p ->
  stateInvariant (merge s p).
Proof.
  unfold stateInvariant, allOrNothing.
  intros (Hdata & Hload & Herr)
    [[->|[->|(t & ts & te & ->)]]|[[d ->]|[k ->]]]; simpl;
    try (repeat split; solve [auto | discriminate]).
  repeat split; auto. right. repeat split; discriminate.
  discriminate.
Qed.

(** X7. Whatever the order in which the container's [setState] calls land,
    from the initial state the three data fields are all empty or all set,
    [loading] is false only when they are set, and [error] is empty or the
    fixed message. *)
Theorem container_invariant (patches : list Patch) :
  Forall issued patches ->
  stateInvariant (fold_left merge patches initialState).
Proof.
  assert (Hgen : forall s, stateInvariant s -> Forall issued patches ->
                           stateInvariant (fold_left merge patches s)).
  { induction patches as [|p ps IH]; simpl; intros s Hs Hall; [exact Hs|].
    inversion Hall as [|? ? Hp Hps]; subst.
    apply IH; [|exact Hps].
    apply stateInvariant_merge; [exact Hs|now apply issued_kind]. }
  apply Hgen. unfold stateInvariant, allOrNothing, initialState. simpl.
  repeat split; auto. discriminate.
Qed.

(** X8. Nothing the container does clears [error] or empties a data field,
    and only the data patch of a successful fetch cycle sets [loading] to
    false. *)
Theorem container_never_clears (patches : list Patch) (s : State) :
  Forall issued patches ->
  (error s <> None -> error (fold_left merge patches s) <> None)
  /\ (trigger s <> None -> trigger (fold_left merge patches s) <> None)
  /\ (triggerState s <> None ->
      triggerState (fold_left merge patches s) <> None)
  /\ (triggerEvents s <> None ->
      triggerEvents (fold_left merge patches s) <> None)
  /\ (loading s = true -> loading (fold_left merge patches s) = false ->
      exists t ts te, In (snapshotPatch t ts te) patches).
Proof.
  revert s; induction patches as [|p ps IH]; intros s Hall; simpl.
  - do 4 (split; [auto|]). intros H1 H2. congruence.
  - inversion Hall as [|? ? Hp Hps]; subst.
    destruct (IH (merge s p) Hps) as (He & Ht & Hts & Hte & Hl).
    assert (Hstep : (error s <> None -> error (merge s p) <> None)
                    /\ (trigger s <> None -> trigger (merge s p) <> None)
                    /\ (triggerState s <> None ->
                        triggerState (merge s p) <> None)
                    /\ (triggerEvents s <> None ->
                        triggerEvents (merge s p) <> None)
                    /\ (loading s = true ->
                        loading (merge s p) = true
                        \/ exists t ts te, p = snapshotPatch t ts te)).
    { destruct (issued_kind p Hp)
        as [[->|[->|(t & ts & te & ->)]]|[[d ->]|[k ->]]]; simpl;
        do 4 (split; [auto; discriminate|]); eauto. }
    destruct Hstep as (He' & Ht' & Hts' & Hte' & Hl').
    do 4 (split; [auto|]).
    intros Hload Hfalse. destruct (Hl' Hload) as [Hstill|(t & ts & te & ->)].
    + destruct (Hl Hstill Hfalse) as (t & ts & te & Hin). eauto 6.
    + eauto 6.
Qed.

(** X9. The fetch cycle and the mutations leave [sorting] and [sortingDown]
    alone; selecting a sort column changes nothing else and makes no API
    call. *)
Theorem sorting_is_separate (a : Action) (s : State) :
  match a with
  | SortSelected _ =>
      loading (final (perform a s)) = loading s
      /\ error (final (perform a s)) = error s
      /\ trigger (final (perform a s)) = trigger s
      /\ triggerState (final (perform a s)) = triggerState s
      /\ triggerEvents (final (perform a s)) = triggerEvents s
      /\ callsOf (trace (perform a s)) = []
  | _ =>
      sorting (final (perform a s)) = sorting s
      /\ sortingDown (final (perform a s)) = sortingDown s
  end.
Proof.
  assert (Hdata : forall ps s0, Forall dataPatch ps ->
             sorting (fold_left merge ps s0) = sorting s0
             /\ sortingDown (fold_left merge ps s0) = sortingDown s0).
  { induction ps as [|p ps IH]; simpl; intros s0 Hall; [auto|].
    inversion Hall as [|? ? Hp Hps]; subst.
    destruct (IH (merge s0 p) Hps) as [-> ->].
    destruct Hp as [->|[->|(t & ts & te & ->)]]; auto. }
  destruct (perform_patches a s) as [Hf Hall].
  destruct a; try (rewrite Hf; now apply Hdata).
  simpl. unfold onSort.
  destruct (Sorting_eqb newSorting (sorting s)); simpl; repeat split.
Qed.

Definition resolves {A : Type} (r : Response A) : bool :=
  match r with Resolves _ => true | Rejects => false end.

Lemma merge_twice (s : State) (p : Patch) : merge (merge s p) p = merge s p.
Proof.
  destruct s, p; unfold merge; simpl.
  destruct p_loading0, p_error0, p_trigger0, p_triggerState0,
    p_triggerEvents0, p_sorting0, p_sortingDown0; reflexivity.
Qed.

(** X10. [getData] may be invoked again at any time: its calls and its patch
    do not depend on the state it starts from, and running it a second time
    against the same answers leaves the state of the first run. *)
Theorem getData_repeatable (props : Props) (s s' : State) :
  trace (getData props s') = trace (getData props s)
  /\ final (getData props (final (getData props s)))
     = final (getData props s).
Proof.
  destruct (params_id props) as [id|] eqn:Hid.
  - rewrite (getData_run props id (final (getData props s)) Hid).
    rewrite (getData_run props id s Hid), (getData_run props id s' Hid).
    destruct (api_getTrigger (moiraApi props) id);
      [destruct (api_getTriggerState (moiraApi props) id);
       [destruct (api_getTriggerEvents (moiraApi props) id)|]|];
      simpl; rewrite merge_twice; auto.
  - unfold getData. rewrite Hid. auto.
Qed.

(** X11. Without a string id [getData] does nothing at all. With one, it
    calls [getTrigger], then [getTriggerState] only if that resolved, then
    [getTriggerEvents] only if both resolved, all for the route's id, and
    nothing else. *)
Theorem getData_reads_in_order (props : Props) (s : State) :
  (params_id props = None ->
   trace (getData props s) = [] /\ final (getData props s) = s)
  /\ (forall id,
        params_id props = Some id ->
        callsOf (trace (getData props s))
        = CallGetTrigger id
          :: (if resolves (api_getTrigger (moiraApi props) id)
              then CallGetTriggerState id
                   :: (if resolves (api_getTriggerState (moiraApi props) id)
                       then [CallGetTriggerEvents id]
                       else [])
              else [])).
Proof.
  split.
  - intros Hid. unfold getData. rewrite Hid. auto.
  - intros id Hid. rewrite (getData_run props id s Hid).
    destruct (api_getTrigger (moiraApi props) id);
      [destruct (api_getTriggerState (moiraApi props) id);
       [destruct (api_getTriggerEvents (moiraApi props) id)|]|];
      reflexivity.
Qed.

(** X12. A mutation whose write call resolves, under a string route id:
    when the three reads resolve, the states to observe are the one before,
    the same with [loading] true, and the new snapshot with [loading] false;
    the write call, for the id the mutation was given, comes before the
    three reads, for the route's id. When a read rejects, the mutation ends
    with [loading] still true, the error message, and the data of before. *)
Theorem mutation_then_refresh (a : Action) (props : Props) (write : ApiCall)
    (response : Response unit) (id : jsstring) (s : State) :
  writeOf a = Some (props, write, response) ->
  params_id props = Some id ->
  response = Resolves tt ->
  (forall t ts te,
      api_getTrigger (moiraApi props) id = Resolves t ->
      api_getTriggerState (moiraApi props) id = Resolves ts ->
      api_getTriggerEvents (moiraApi props) id = Resolves te ->
      observable s (trace (perform a s))
        = [s; merge s loadingTrue;
           merge (merge s loadingTrue) (snapshotPatch t ts te)]
      /\ final (perform a s)
         = merge (merge s loadingTrue) (snapshotPatch t ts te)
      /\ callsOf (trace (perform a s))
         = [write; CallGetTrigger id; CallGetTriggerState id;
            CallGetTriggerEvents id])
  /\ (someReadRejects (moiraApi props) id ->
      loading (final (perform a s)) = true
      /\ error (final (perform a s)) = Some networkError
      /\ sameData s (final (perform a s))).
Proof.
  intros Hw Hid ->. rewrite (perform_mutation a props write _ Hw).
  rewrite mutationBody_run.
  rewrite (getData_run props id (merge s loadingTrue) Hid). split.
  - intros t ts te -> -> ->. simpl. auto.
  - intros Hrej. unfold someReadRejects in Hrej.
    destruct (api_getTrigger (moiraApi props) id) as [t|];
      [destruct (api_getTriggerState (moiraApi props) id) as [ts|];
       [destruct (api_getTriggerEvents (moiraApi props) id) as [te|]|]|];
      try (destruct Hrej as [Hrej|[Hrej|Hrej]]; discriminate);
      simpl; unfold sameData; simpl; auto.
Qed.

(** X13. A mutation under props without a string route id makes its write
    call and then stops: [getData] does nothing, so the component stays at
    [loading] true with everything else as before, whether the write call
    resolved or not. *)
Theorem mutation_without_route_id (a : Action) (props : Props)
    (write : ApiCall) (response : Response unit) (s : State) :
  writeOf a = Some (props, write, response) ->
  params_id props = None ->
  final (perform a s) = merge s loadingTrue
  /\ loading (final (perform a s)) = true
  /\ trace (perform a s) = [SetState loadingTrue; Call write].
Proof.
  intros Hw Hid. rewrite (perform_mutation a props write _ Hw).
  rewrite mutationBody_run. unfold getData. rewrite Hid.
  destruct response as [[]|]; simpl; auto.
Qed.

(** *** render *)

(** [triggerState.metrics], a reference to the metrics map; [None] when the
    property is [undefined]. *)
Variable metricsOf : TriggerState -> option ref.

Inductive TabId := StateTab | EventsTab.

(** The props [render] passes to [MetricList]; the three handlers are
    [onSort], [setMaintenance] and [removeMetric] above. *)
Record MetricListProps := {
  items : obj Metric;
  list_sorting : Sorting;
  list_sortingDown : bool
}.

(** [Tabs]: its [value] and the tabs among its children. *)
Record TabsProps := {
  tabs_value : TabId;
  tab_state : option MetricListProps;
  tab_events : option (list Event)
}.

(** [Layout]: its props and the children rendered inside it, the plate with
    [TriggerInfo] and the content with [Tabs]. *)
Record LayoutProps := {
  layout_loading : bool;
  layout_error : option jsstring;
  layout_plate : option Trigger;
  layout_content : option TabsProps
}.

(** [const { metrics } = triggerState || {}] *)
Definition render_metrics (s : State) : option ref :=
  match triggerState s with
  | Some ts => metricsOf ts
  | None => None
  end.

(** [const { list: events } = triggerEvents || {}] *)
Definition render_events (s : State) : option (list Event) :=
  match triggerEvents s with
  | Some te => Some (list_ te)
  | None => None
  end.

(** [metrics && Object.keys(metrics).length > 0], as a condition; the outer
    [None] is a reference that is not in the heap. *)
Definition render_isMetrics (s : State) (h : heap Metric) : option bool :=
  match render_metrics s with
  | None => Some false
  | Some r =>
      match deref h r with
      | Some m => Some (negb (Nat.eqb (List.length (own_keys m)) 0))
      | None => None
      end
  end.

(** [events && events.length > 0], as a condition. *)
Definition render_isEvents (s : State) : bool :=
  match render_events s with
  | Some events => negb (Nat.eqb (List.length events) 0)
  | None => false
  end.

(** [render()]: what it hands to [Layout]; [None] when it throws. The
    object [sortMetrics] allocates is kept in the view, the heap it leaves is
    not. *)
Definition render (s : State) (h : heap Metric) : option LayoutProps :=
  match render_isMetrics s h with
  | None => None
  | Some isMetrics =>
      let isEvents := render_isEvents s in
      let stateTab :=
        if isMetrics
        then match trigger s, render_metrics s with
             | Some _, Some metrics =>
                 match sortMetricsResult s h metrics with
                 | Some sorted =>
                     Some (Some {| items := sorted;
                                   list_sorting := sorting s;
                                   list_sortingDown := sortingDown s |})
                 | None => None
                 end
             | _, _ => Some None
             end
        else Some None in
      let content :=
        if isMetrics || isEvents
        then match stateTab with
             | Some tab =>
                 Some (Some {| tabs_value :=
                                 if isMetrics then StateTab else EventsTab;
                               tab_state := tab;
                               tab_events :=
                                 if isEvents then render_events s else None |})
             | None => None
             end
        else Some None in
      match content with
      | Some c =>
          Some {| layout_loading := loading s;
                  layout_error := error s;
                  layout_plate := trigger s;
                  layout_content := c |}
      | None => None
      end
  end.

(** The metrics reference of the state, if any, is that of a well-formed
    object of the heap. *)
Definition metricsInHeap (s : State) (h : heap Metric) : Prop :=
  forall r, render_metrics s = Some r ->
            exists m, deref h r = Some m /\ NoDup (keys m).

Lemma render_isMetrics_defined (s : State) (h : heap Metric) :
  metricsInHeap s h ->
  exists isMetrics,
    render_isMetrics s h = Some isMetrics
    /\ (isMetrics = true ->
        exists r m, render_metrics s = Some r /\ deref h r = Some m
                    /\ NoDup (keys m) /\ keys m <> []).
Proof.
  intros Hheap. unfold render_isMetrics.
  destruct (render_metrics s) as [r|] eqn:Hr.
  - destruct (Hheap r Hr) as (m & Hm & Hnd). rewrite Hm.
    eexists. split; [reflexivity|]. intros Hne.
    exists r, m. repeat split; auto. intros Hnil.
    pose proof (Permutation_length (own_keys_perm m)) as Hlen.
    rewrite Hnil in Hlen. simpl in Hlen. rewrite Hlen in Hne. discriminate.
  - exists false. split; [reflexivity|discriminate].
Qed.

(** X14. [render] does not throw, and in a state whose data fields are all
    empty or all set, the tab that [Tabs] is told to show is one of the tabs
    rendered; while the data fields are empty, nothing but the [Layout]
    with its [loading] and [error] is rendered. *)
Theorem render_tabs_consistent (s : State) (h : heap Metric) :
  allOrNothing s ->
  metricsInHeap s h ->
  exists view,
    render s h = Some view
    /\ layout_loading view = loading s
    /\ layout_error view = error s
    /\ layout_plate view = trigger s
    /\ (forall tabs,
          layout_content view = Some tabs ->
          match tabs_value tabs with
          | StateTab => tab_state tabs <> None
          | EventsTab => tab_events tabs <> None
          end)
    /\ (trigger s = None -> layout_content view = None).
Proof.
  intros Hdata Hheap.
  destruct (render_isMetrics_defined s h Hheap) as (isMetrics & Him & Hm).
  unfold render. rewrite Him.
  assert (Hev : render_isEvents s = true -> render_events s <> None).
  { unfold render_isEvents. destruct (render_events s); congruence. }
  destruct isMetrics.
  - destruct (Hm eq_refl) as (r & m & Hr & Hd & Hnd & _).
    assert (Htrig : trigger s <> None).
    { destruct Hdata as [(_ & Hts & _)|(Ht & _)]; [|exact Ht].
      unfold render_metrics in Hr. rewrite Hts in Hr. discriminate. }
    destruct (trigger s) as [t|] eqn:Et; [|congruence].
    rewrite Hr.
    destruct (sortMetrics_run s h r m Hd)
      as (sorted & r1 & ext & _ & Hrun & _ & Hout).
    unfold sortMetricsResult. rewrite Hrun, Hout. simpl.
    eexists. split; [reflexivity|]. simpl. repeat split; try discriminate.
    intros tabs Htabs. injection Htabs as <-. simpl. discriminate.
  - simpl. destruct (render_isEvents s) eqn:Eev.
    + eexists. split; [reflexivity|]. simpl. repeat split.
      * intros tabs Htabs. injection Htabs as <-. simpl. now apply Hev.
      * intros Ht. exfalso.
        destruct Hdata as [(_ & _ & Hte)|(Hne & _)]; [|congruence].
        unfold render_isEvents, render_events in Eev. rewrite Hte in Eev.
        discriminate.
    + eexists. split; [reflexivity|]. simpl. repeat split; try discriminate.
Qed.

(** X15. What [MetricList] is given: the keys of the metrics map, each once,
    with the [sorting] and [sortingDown] of the state. With an empty
    metrics map and an empty events list, no tab is produced. *)
Theorem render_metric_list (s : State) (h : heap Metric) (view : LayoutProps) :
  metricsInHeap s h ->
  render s h = Some view ->
  (forall tabs metricList,
      layout_content view = Some tabs ->
      tab_state tabs = Some metricList ->
      list_sorting metricList = sorting s
      /\ list_sortingDown metricList = sortingDown s
      /\ exists r m,
           render_metrics s = Some r /\ deref h r = Some m
           /\ Permutation (keys (items metricList)) (keys m)
           /\ forall k, get (items metricList) k = get m k)
  /\ ((forall r m, render_metrics s = Some r -> deref h r = Some m -> m = []) ->
      (forall events, render_events s = Some events -> events = []) ->
      layout_content view = None).
Proof.
  intros Hheap Hrender.
  destruct (render_isMetrics_defined s h Hheap) as (isMetrics & Him & Hm).
  unfold render in Hrender. rewrite Him in Hrender. split.
  - intros tabs metricList Hcontent Htab.
    destruct isMetrics.
    + destruct (Hm eq_refl) as (r & m & Hr & Hd & Hnd & _).
      rewrite Hr in Hrender.
      destruct (sortMetrics_run s h r m Hd)
        as (sorted & r1 & ext & Hsort & Hrun & _ & Hout).
      destruct (sorted_object m _ sorted Hnd Hsort) as (_ & Hperm & _ & Hget).
      unfold sortMetricsResult in Hrender. rewrite Hrun, Hout in Hrender.
      destruct (trigger s); simpl in Hrender; injection Hrender as <-;
        simpl in Hcontent; injection Hcontent as <-; simpl in Htab;
        [|discriminate].
      injection Htab as <-. simpl. repeat split. exists r, m. auto.
    + simpl in Hrender. destruct (render_isEvents s);
        injection Hrender as <-; simpl in Hcontent; [|discriminate].
      injection Hcontent as <-. discriminate.
  - intros Hnom Hnoe.
    assert (Hev : render_isEvents s = false).
    { unfold render_isEvents. destruct (render_events s) as [ev|] eqn:E;
        [|reflexivity]. now rewrite (Hnoe ev eq_refl). }
    assert (Hmt : isMetrics = false).
    { destruct isMetrics; [|reflexivity].
      destruct (Hm eq_refl) as (r & m & Hr & Hd & _ & Hne).
      rewrite (Hnom r m Hr Hd) in Hne. now contradiction Hne. }
    subst isMetrics. rewrite Hev in Hrender. simpl in Hrender.
    injection Hrender as <-. reflexivity.
Qed.

End TriggerContainer.

Arguments completion {Trigger TriggerState Event A} r.
Arguments final {Trigger TriggerState Event A} r.
Arguments trace {Trigger TriggerState Event A} r.

(** ** A concrete engine and concrete runs *)

#[export] Instance insertionSortEngine : ArraySort := {|
  array_sort := @insertionSort;
  array_sort_returns := @insertionSort_returns;
  array_sort_perm := @insertionSort_perm;
  array_sort_ext := @insertionSort_ext
|}.

(** Sample domain: a status enumeration with weights, maintenance choices in
    minutes, triggers named by a string. These are examples for the concrete
    runs below, not the tables of [../Domain]. *)
Inductive SampleStatus := OK | WARN | ERROR | NODATA.

Definition sampleWeight (st : SampleStatus) : Z :=
  match st with OK => 0 | WARN => 1 | ERROR => 100 | NODATA => 1000 end.

Inductive SampleMaintenance := off | quarterHour | oneHour.

Definition sampleMinutes (m : SampleMaintenance) : Z :=
  match m with off => 0 | quarterHour => 15 | oneHour => 60 end.

Definition sampleEvents : @TriggerEvents unit :=
  {| total := 0; list_ := []; page := 0; size := 100 |}.

(** An API that answers every call. *)
Definition okApi : @MoiraApi jsstring unit unit := {|
  api_getTrigger := fun id => Resolves id;
  api_getTriggerState := fun _ => Resolves tt;
  api_getTriggerEvents := fun _ => Resolves sampleEvents;
  api_delThrottling := fun _ => Resolves tt;
  api_setMaintenance := fun _ _ => Resolves tt;
  api_delMetric := fun _ _ => Resolves tt
|}.

(** An API whose second read rejects. *)
Definition failingApi : @MoiraApi jsstring unit unit := {|
  api_getTrigger := fun id => Resolves id;
  api_getTriggerState := fun _ => Rejects;
  api_getTriggerEvents := fun _ => Resolves sampleEvents;
  api_delThrottling := fun _ => Resolves tt;
  api_setMaintenance := fun _ _ => Resolves tt;
  api_delMetric := fun _ _ => Resolves tt
|}.

(** An API whose reads resolve and whose writes reject. *)
Definition readOnlyApi : @MoiraApi jsstring unit unit := {|
  api_getTrigger := fun id => Resolves id;
  api_getTriggerState := fun _ => Resolves tt;
  api_getTriggerEvents := fun _ => Resolves sampleEvents;
  api_delThrottling := fun _ => Rejects;
  api_setMaintenance := fun _ _ => Rejects;
  api_delMetric := fun _ _ => Rejects
|}.

Definition okProps : Props :=
  {| moiraApi := okApi; params_id := Some (lit "t1") |}.
Definition failingProps : Props :=
  {| moiraApi := failingApi; params_id := Some (lit "t1") |}.
Definition readOnlyProps : Props :=
  {| moiraApi := readOnlyApi; params_id := Some (lit "t1") |}.

(** A state with stale data on screen. *)
Definition staleState : @State jsstring unit unit := {|
  loading := true; error := None;
  trigger := Some (lit "t0"); triggerState := Some tt;
  triggerEvents := Some sampleEvents;
  sorting := SortName; sortingDown := false
|}.

Definition sampleMetrics : obj (@Metric SampleStatus) :=
  [(lit "Metric-A!",
    {| state := WARN; event_timestamp := Some 1700000000; value := None |});
   (lit "metric-a",
    {| state := OK; event_timestamp := None; value := Some (3 # 2)%Q |});
   (lit "10",
    {| state := ERROR; event_timestamp := Some 1600000000;
       value := Some (-1)%Q |});
   (lit "9",
    {| state := NODATA; event_timestamp := Some 1650000000;
       value := Some 0%Q |})].

Lemma sampleMetrics_NoDup : NoDup (keys sampleMetrics).
Proof.
  repeat constructor; simpl; intuition discriminate.
Qed.

(** The keys of the sample map sorted by value: ["10"] (-1), then ["9"] and
    ["Metric-A!"] (0 and absent), then ["metric-a"] (3/2). *)
Example sortMetrics_sample_sorted :
  array_sort (sortingFn sampleWeight sampleMetrics true SortValue)
             (own_keys sampleMetrics)
  = Some [lit "10"; lit "9"; lit "Metric-A!"; lit "metric-a"].
Proof. reflexivity. Qed.

(** The object [sortMetrics] returns for the sample map, here sorted by
    name: like every object, it lists its array indices first. *)
Example sortMetrics_sample_keys :
  option_map own_keys
    (sortMetricsResult sampleWeight staleState [sampleMetrics] 0%nat)
  = Some [lit "9"; lit "10"; lit "Metric-A!"; lit "metric-a"].
Proof. reflexivity. Qed.

Example normalizeName_sample :
  normalizeName (lit "  CPU usage (%) .Host-1 ") = lit "cpuusage.host-1".
Proof. reflexivity. Qed.

Example getData_sample :
  trace (getData okProps staleState)
  = [Call (CallGetTrigger (lit "t1")); Call (CallGetTriggerState (lit "t1"));
     Call (CallGetTriggerEvents (lit "t1"));
     SetState (snapshotPatch (lit "t1") tt sampleEvents)].
Proof. reflexivity. Qed.

Lemma getData_all_or_nothing_witness :
  observable staleState (trace (getData okProps staleState))
    = [staleState; final (getData okProps staleState)]
  /\ (forall s',
        In s' (observable staleState (trace (getData failingProps staleState)))
        -> sameData staleState s').
Proof.
  split.
  - exact (proj1 (proj2
      (proj1 (getData_all_or_nothing okProps (lit "t1") staleState eq_refl)
             (lit "t1") tt sampleEvents eq_refl eq_refl eq_refl))).
  - apply (proj2
      (getData_all_or_nothing failingProps (lit "t1") staleState eq_refl)).
    right; left; reflexivity.
Defined.

Lemma getData_failure_witness :
  error (final (getData failingProps staleState))
    = Some (lit "Network error. Please, reload page")
  /\ loading (final (getData failingProps staleState)) = true
  /\ trigger (final (getData failingProps staleState)) = Some (lit "t0").
Proof.
  pose proof (getData_failure failingProps (lit "t1") staleState eq_refl
                (or_intror (or_introl eq_refl))) as H.
  split; [exact (proj1 H)|].
  split; [exact (proj1 (proj2 (proj2 (proj2 (proj2 H)))))|].
  exact (proj1 (proj2 H)).
Defined.

(** C3 as stated fails: with a write call that rejects, [disableTrhrottling]
    stops after the write call; [getData], which from the same state would
    make its three reads and commit, is not run. The same holds for
    [setMaintenance] and [removeMetric]. *)
Lemma rejected_write_skips_refresh :
  api_delThrottling (moiraApi readOnlyProps) (lit "t1") = Rejects
  /\ trace (disableTrhrottling readOnlyProps (lit "t1") staleState)
     = [SetState loadingTrue; Call (CallDelThrottling (lit "t1"))]
  /\ completion (disableTrhrottling readOnlyProps (lit "t1") staleState)
     = Threw
  /\ trace (getData readOnlyProps (merge staleState loadingTrue))
     = [Call (CallGetTrigger (lit "t1")); Call (CallGetTriggerState (lit "t1"));
        Call (CallGetTriggerEvents (lit "t1"));
        SetState (snapshotPatch (lit "t1") tt sampleEvents)]
  /\ ~ refreshInvoked readOnlyProps staleState
         (disableTrhrottling readOnlyProps (lit "t1") staleState)
         (CallDelThrottling (lit "t1"))
  /\ ~ refreshInvoked readOnlyProps staleState
         (setMaintenance sampleMinutes 1700000000123 readOnlyProps (lit "t1")
            oneHour (lit "cpu") staleState)
         (CallSetMaintenance (lit "t1") [(lit "cpu", Some 1700003600)])
  /\ ~ refreshInvoked readOnlyProps staleState
         (removeMetric readOnlyProps (lit "t1") (lit "cpu") staleState)
         (CallDelMetric (lit "t1") (lit "cpu")).
Proof.
  repeat split; try reflexivity; unfold refreshInvoked; vm_compute;
    discriminate.
Qed.

Lemma mutation_template_witness :
  mutationRun okProps staleState
    (disableTrhrottling okProps (lit "t1") staleState)
    (CallDelThrottling (lit "t1")) (Resolves tt)
  /\ mutationRun readOnlyProps staleState
       (removeMetric readOnlyProps (lit "t1") (lit "cpu") staleState)
       (CallDelMetric (lit "t1") (lit "cpu")) Rejects.
Proof.
  split.
  - exact (proj1 (mutation_template sampleMinutes okProps staleState)
                 (lit "t1")).
  - exact (proj2 (proj2 (mutation_template sampleMinutes readOnlyProps
                           staleState))
                 (lit "t1") (lit "cpu")).
Defined.

Lemma setMaintenance_payload_witness :
  effectiveTimestamp 1700000000123 (sampleMinutes oneHour)
    = Some 1700003600
  /\ effectiveTimestamp 1700000000123 (sampleMinutes off) = Some 0
  /\ effectiveTimestamp 1700000000123 1000000000000 = None.
Proof.
  split; [|split].
  - apply (proj1 (proj2
      (setMaintenance_payload sampleMinutes 1700000000123 okProps (lit "t1")
         oneHour (lit "cpu") staleState))).
    + reflexivity.
    + unfold inDateRange. vm_compute. discriminate.
    + unfold inDateRange. vm_compute. discriminate.
  - exact (proj2 (proj2 (proj2 (proj2
      (setMaintenance_payload sampleMinutes 1700000000123 okProps (lit "t1")
         off (lit "cpu") staleState)))) eq_refl).
  - apply (proj1 (proj2 (proj2
      (setMaintenance_payload (fun minutes : Z => minutes) 1700000000123
         okProps (lit "t1") 1000000000000 (lit "cpu") staleState)))).
    + reflexivity.
    + unfold inDateRange. intros [_ H]. vm_compute in H. now apply H.
Defined.

Lemma sort_selection_toggle_witness :
  selectSorting (selectSorting staleState SortName) SortName = staleState
  /\ sortingDown (selectSorting staleState SortValue) = true.
Proof.
  split.
  - exact (proj2 (proj2
      (proj1 (sort_selection_toggle staleState SortName) eq_refl))).
  - apply (proj2 (sort_selection_toggle staleState SortValue)).
    discriminate.
Defined.

Lemma comparators_sign_convention_witness :
  sortingFn sampleWeight sampleMetrics true SortValue
    (lit "10") (lit "metric-a") = Some (-1)
  /\ sortingFn sampleWeight sampleMetrics false SortState
       (lit "10") (lit "metric-a") = Some (-1).
Proof.
  split.
  - apply (proj1 (proj2 (proj2 (proj2
      (comparators_sign_convention sampleWeight sampleMetrics true
         (lit "10") (lit "metric-a") _ _ eq_refl eq_refl))))).
    reflexivity.
  - apply (proj1 (proj2 (proj1
      (comparators_sign_convention sampleWeight sampleMetrics false
         (lit "10") (lit "metric-a") _ _ eq_refl eq_refl)))).
    reflexivity.
Defined.

Lemma event_absent_ties_witness :
  sortingFn sampleWeight sampleMetrics true SortEvent
    (lit "metric-a") (lit "10") = Some 0
  /\ sortingFn sampleWeight sampleMetrics true SortEvent
       (lit "10") (lit "metric-a") = Some 0.
Proof.
  exact (proj1 (event_absent_ties sampleWeight sampleMetrics true
                  (lit "metric-a") (lit "10") _ _ eq_refl eq_refl
                  (or_introl eq_refl))).
Defined.

Lemma sortMetrics_pure_witness :
  exists r1 h1 out,
    sortMetrics sampleWeight staleState [sampleMetrics] 0%nat = Some (r1, h1)
    /\ deref h1 r1 = Some out
    /\ r1 <> 0%nat
    /\ deref h1 0%nat = Some sampleMetrics
    /\ Permutation (keys out) (keys sampleMetrics).
Proof.
  destruct (sortMetrics_pure sampleWeight staleState [sampleMetrics] 0%nat
              sampleMetrics eq_refl sampleMetrics_NoDup)
    as (r1 & h1 & out & Hrun & Hout & _ & Hne & Hsame & Hperm & _).
  exists r1, h1, out.
  split; [exact Hrun|]. split; [exact Hout|]. split; [exact Hne|].
  split; [|exact Hperm].
  exact (Hsame 0%nat Nat.lt_0_1).
Defined.

Lemma name_comparator_normalizes_witness :
  sortingFn sampleWeight sampleMetrics true SortName
    (lit "Metric-A!") (lit "metric-a") = Some 0.
Proof.
  apply (proj1 (proj2
    (name_comparator_normalizes (Trigger := jsstring) (TriggerState := unit)
       (Event := unit) sampleWeight sampleMetrics true))).
  reflexivity.
Defined.


(** ** The concrete engine sorts *)

Section InsertionSortSorts.

Context {A : Type} (cmp : A -> A -> option Z).

Lemma insertBy_sorted (x : A) (l l' : list A) :
  (forall y, In y l -> before cmp x y \/ before cmp y x) ->
  (forall y z, In y l -> In z l ->
               before cmp x y -> before cmp y z -> before cmp x z) ->
  StronglySorted (before cmp) l ->
  insertBy cmp x l = Some l' ->
  StronglySorted (before cmp) l'.
Proof.
  revert l'; induction l as [|y l IH]; simpl; intros l' Hconn Htrans Hs Hins.
  - injection Hins as <-. repeat constructor.
  - inversion Hs as [|? ? Hs' Hy]; subst.
    destruct (cmp x y) as [c|] eqn:Exy; [|discriminate].
    destruct (Z.leb_spec c 0) as [Hle|Hgt].
    + injection Hins as <-. constructor; [exact Hs|].
      assert (Hxy : before cmp x y) by (exists c; auto).
      constructor; [exact Hxy|].
      apply Forall_forall. intros z Hz. rewrite Forall_forall in Hy.
      apply (Htrans y z); auto.
    + destruct (insertBy cmp x l) as [r|] eqn:Er; [|discriminate].
      injection Hins as <-.
      constructor.
      * apply (IH r); try reflexivity; try exact Hs'.
        -- intros y0 Hy0. apply Hconn. now right.
        -- intros y0 z Hy0 Hz. apply Htrans; now right.
      * apply Forall_forall. intros z Hz.
        apply (Permutation_in _
                 (Permutation_sym (insertBy_perm cmp x l r Er))) in Hz.
        destruct Hz as [<-|Hz].
        -- destruct (Hconn y (or_introl eq_refl)) as [(v & Hv & Hv0)|Hyx];
             [|exact Hyx].
           rewrite Exy in Hv. injection Hv as <-. lia.
        -- rewrite Forall_forall in Hy. now apply Hy.
Qed.

Lemma insertionSort_sorted (l l' : list A) :
  (forall a b, In a l -> In b l -> before cmp a b \/ before cmp b a) ->
  (forall a b c, In a l -> In b l -> In c l ->
                 before cmp a b -> before cmp b c -> before cmp a c) ->
  insertionSort cmp l = Some l' ->
  StronglySorted (before cmp) l'.
Proof.
  revert l'; induction l as [|x l IH]; simpl; intros l' Hconn Htrans Hsort.
  - injection Hsort as <-. constructor.
  - destruct (insertionSort cmp l) as [r|] eqn:Er; [|discriminate].
    assert (Hin : forall y, In y r -> In y l).
    { intros y. apply (Permutation_in _
                         (Permutation_sym (insertionSort_perm cmp l r Er))). }
    apply (insertBy_sorted x r l').
    + intros y Hy. apply Hconn; auto.
    + intros y z Hy Hz. apply Htrans; auto.
    + apply (IH r); try reflexivity.
      * intros a b Ha Hb. apply Hconn; now right.
      * intros a b c Ha Hb Hc. apply Htrans; now right.
    + exact Hsort.
Qed.

End InsertionSortSorts.

Lemma insertionSortEngine_sorts : sortsConsistent insertionSortEngine.
Proof.
  intros A cmp l l' Hcons Hsort.
  assert (Hin : forall x, In x l' -> In x l).
  { intros x. apply (Permutation_in _
                       (Permutation_sym (insertionSort_perm cmp l l' Hsort))). }
  apply (StronglySorted_weaken (before cmp)).
  - intros x y Hx Hy. apply (cf_before_not_lt cmp l Hcons); auto.
  - apply (insertionSort_sorted cmp l l'); [| |exact Hsort].
    + intros a b. apply (cf_before_connex cmp l Hcons).
    + intros a b c. apply (cf_before_trans cmp l Hcons).
Qed.

(** ** Concrete runs of the further properties *)

Lemma sampleMetrics_10 :
  get sampleMetrics (lit "10")
  = Some {| state := ERROR; event_timestamp := Some 1600000000;
            value := Some (-1)%Q |}.
Proof. reflexivity. Qed.

Lemma comparator_antisymmetric_witness :
  sortingFn sampleWeight sampleMetrics true SortState (lit "9") (lit "10")
    = Some 1
  /\ sortingFn sampleWeight sampleMetrics false SortState (lit "10") (lit "9")
     = Some 1.
Proof.
  pose proof (comparator_antisymmetric sampleWeight sampleMetrics true
                SortState (lit "10") (lit "9") _ _ eq_refl eq_refl) as H.
  split.
  - exact (proj1 H).
  - exact (eq_trans (proj1 (proj2 H)) (proj1 H)).
Defined.

Lemma comparators_consistent_witness :
  notAfter sampleWeight sampleMetrics true SortValue
    (lit "10") (lit "Metric-A!")
  <-> (-1 <= 0)%Q.
Proof.
  exact (proj1 (proj2 (proj2
    (comparators_consistent sampleWeight sampleMetrics true SortValue
       (lit "10") (lit "Metric-A!") (lit "metric-a") _ _ _
       ltac:(discriminate) eq_refl eq_refl eq_refl)))).
Defined.

Lemma sortMetrics_key_order_witness :
  exists sorted out (indices : list (N * jsstring)),
    array_sort (sortingFn sampleWeight sampleMetrics false SortName)
               (own_keys sampleMetrics) = Some sorted
    /\ sortMetricsResult sampleWeight staleState [sampleMetrics] 0%nat
       = Some out
    /\ own_keys out = map snd indices ++ filter nonIndex sorted.
Proof.
  destruct (sortMetrics_key_order sampleWeight staleState [sampleMetrics]
              0%nat sampleMetrics eq_refl sampleMetrics_NoDup)
    as (sorted & out & indices & H1 & H2 & H3 & _).
  exists sorted, out, indices. auto.
Defined.

Lemma sortMetrics_ordered_witness :
  exists out,
    sortMetricsResult sampleWeight staleState [sampleMetrics] 0%nat = Some out
    /\ StronglySorted (notAfter sampleWeight sampleMetrics false SortName)
         (filter nonIndex (own_keys out)).
Proof.
  exact (sortMetrics_ordered sampleWeight staleState [sampleMetrics] 0%nat
           sampleMetrics insertionSortEngine_sorts ltac:(discriminate)
           eq_refl sampleMetrics_NoDup).
Defined.

Lemma sample_patches_issued :
  Forall (issued sampleMinutes)
    [loadingTrue; errorPatch; loadingTrue;
     snapshotPatch (lit "t1") tt sampleEvents; flipPatch true].
Proof.
  repeat constructor.
  - exists (ThrottlingRemoved okProps (lit "t1")), staleState. simpl. auto.
  - exists (Mounted failingProps), staleState. simpl. auto.
  - exists (MetricRemoved okProps (lit "t1") (lit "cpu")), staleState.
    simpl. auto.
  - exists (Mounted okProps), staleState. simpl. auto 6.
  - exists (SortSelected SortValue),
      {| loading := true; error := None; trigger := None;
         triggerState := None; triggerEvents := None;
         sorting := SortValue; sortingDown := true |}.
    simpl. auto.
Qed.

Lemma container_invariant_witness :
  stateInvariant
    (fold_left merge
       [loadingTrue; errorPatch; loadingTrue;
        snapshotPatch (lit "t1") tt sampleEvents; flipPatch true]
       initialState).
Proof.
  exact (container_invariant sampleMinutes _ sample_patches_issued).
Defined.

Lemma container_never_clears_witness :
  error (fold_left merge
           [loadingTrue; errorPatch; loadingTrue;
            snapshotPatch (lit "t1") tt sampleEvents; flipPatch true]
           (merge staleState errorPatch)) <> None.
Proof.
  apply (proj1 (container_never_clears sampleMinutes _
                  (merge staleState errorPatch) sample_patches_issued)).
  discriminate.
Defined.

Lemma mutation_then_refresh_witness :
  callsOf (trace (perform sampleMinutes
                    (MetricRemoved okProps (lit "t1") (lit "cpu")) staleState))
  = [CallDelMetric (lit "t1") (lit "cpu"); CallGetTrigger (lit "t1");
     CallGetTriggerState (lit "t1"); CallGetTriggerEvents (lit "t1")]
  /\ loading (final (perform sampleMinutes
                       (MetricRemoved failingProps (lit "t1") (lit "cpu"))
                       staleState)) = true.
Proof.
  split.
  - exact (proj2 (proj2 (proj1
      (mutation_then_refresh sampleMinutes
         (MetricRemoved okProps (lit "t1") (lit "cpu")) okProps _ _
         (lit "t1") staleState eq_refl eq_refl eq_refl)
      (lit "t1") tt sampleEvents eq_refl eq_refl eq_refl))).
  - apply (proj2
      (mutation_then_refresh sampleMinutes
         (MetricRemoved failingProps (lit "t1") (lit "cpu")) failingProps _ _
         (lit "t1") staleState eq_refl eq_refl eq_refl)).
    right; left; reflexivity.
Defined.

Definition noIdProps : Props := {| moiraApi := okApi; params_id := None |}.

Lemma mutation_without_route_id_witness :
  trace (perform sampleMinutes (ThrottlingRemoved noIdProps (lit "t1"))
           staleState)
  = [SetState loadingTrue; Call (CallDelThrottling (lit "t1"))].
Proof.
  exact (proj2 (proj2
    (mutation_without_route_id sampleMinutes
       (ThrottlingRemoved noIdProps (lit "t1")) noIdProps _ _ staleState
       eq_refl eq_refl))).
Defined.

(** A state after a successful fetch, with the trigger state holding the
    reference of its metrics map. *)
Definition loadedState : @State jsstring ref unit := {|
  loading := false; error := None;
  trigger := Some (lit "t1"); triggerState := Some 0%nat;
  triggerEvents := Some sampleEvents;
  sorting := SortValue; sortingDown := true
|}.

Lemma loadedState_metricsInHeap :
  metricsInHeap (fun r : ref => Some r) loadedState [sampleMetrics].
Proof.
  intros r Hr. injection Hr as <-. exists sampleMetrics.
  split; [reflexivity|exact sampleMetrics_NoDup].
Qed.

Example render_sample :
  option_map (fun v => option_map tabs_value (layout_content v))
    (render sampleWeight (fun r : ref => Some r) loadedState [sampleMetrics])
  = Some (Some StateTab).
Proof. reflexivity. Qed.

Lemma loadedState_allOrNothing : allOrNothing loadedState.
Proof. right. repeat split; discriminate. Qed.

Lemma render_tabs_consistent_witness :
  exists view,
    render sampleWeight (fun r : ref => Some r) loadedState [sampleMetrics]
    = Some view
    /\ layout_plate view = Some (lit "t1").
Proof.
  destruct (render_tabs_consistent sampleWeight (fun r : ref => Some r)
              loadedState [sampleMetrics] loadedState_allOrNothing
              loadedState_metricsInHeap)
    as (view & Hv & _ & _ & Hp & _).
  exists view. split; [exact Hv|exact Hp].
Defined.

Lemma render_metric_list_witness :
  match render sampleWeight (fun r : ref => Some r) loadedState
          [sampleMetrics] with
  | Some view =>
      match layout_content view with
      | Some tabs =>
          match tab_state tabs with
          | Some metricList =>
              list_sorting metricList = SortValue
              /\ list_sortingDown metricList = true
          | None => True
          end
      | None => True
      end
  | None => True
  end.
Proof.
  destruct (render sampleWeight (fun r : ref => Some r) loadedState
              [sampleMetrics]) as [view|] eqn:Hview; [|exact I].
  destruct (layout_content view) as [tabs|] eqn:Htabs; [|exact I].
  destruct (tab_state tabs) as [metricList|] eqn:Hlist; [|exact I].
  destruct (proj1 (render_metric_list sampleWeight (fun r : ref => Some r)
                     loadedState [sampleMetrics] view
                     loadedState_metricsInHeap Hview)
                  tabs metricList Htabs Hlist) as (H1 & H2 & _).
  split; assumption.
Defined.
